(** * tytools: the serial session loop of [tyc monitor] and the board
      collection of the Qt [Monitor]

    Three source files are embedded here.

    - [src/tyc/monitor.c]: the option switch of [monitor()] as a pure function
      over the file's static globals, and [loop()] as an interaction tree
      whose events are the calls the loop makes into libty and libc.  The
      POSIX build is modelled (the [#else] branches of [_WIN32]).
    - [src/src/libtyqt/monitor.cc]: the [Monitor] class as explicit state
      passing over a record, with the Qt model notifications and the backend
      calls collected in a log.
    - [src/src/libhs/common_priv.h]: the alignment macro, on [size_t]
      operands. *)

From Stdlib Require Import ZArith List String Ascii Bool Lia.
From Stdlib Require Strings.Byte.
From ITree Require Import ITree Eq.Shallow.
From Paco Require Import paco.
Import ListNotations.
Import ITreeNotations.
Local Open Scope itree_scope.
Local Open Scope string_scope.
Local Open Scope list_scope.
Local Open Scope Z_scope.

(** ** Machine integers *)

(** [(int)r] for a 64-bit [ssize_t r]: the low 32 bits, read as signed. *)
Definition to_int (z : Z) : Z := (z + 2 ^ 31) mod 2 ^ 32 - 2 ^ 31.

(** [(uint32_t)v]. *)
Definition to_uint32 (z : Z) : Z := z mod 2 ^ 32.

Definition is_int (z : Z) : Prop := - 2 ^ 31 <= z < 2 ^ 31.

(** ** What the missing headers declare *)

(** The constants and helpers of [ty.h], [main.h] and libc that
    [src/tyc/monitor.c] uses but whose definitions are not part of the
    sources at hand.  They are taken as parameters. *)
Record ty_h := {
  TY_ERROR_PARAM : Z;
  TY_ERROR_IO : Z;
  TY_ERROR_PARSE : Z;
  TY_TERMINAL_SILENT : Z;
  TY_TERMINAL_RAW : Z;
  TYD_SERIAL_CSIZE_MASK : Z;
  TYD_SERIAL_5BITS_CSIZE : Z;
  TYD_SERIAL_6BITS_CSIZE : Z;
  TYD_SERIAL_7BITS_CSIZE : Z;
  TYD_SERIAL_FLOW_MASK : Z;
  TYD_SERIAL_XONXOFF_FLOW : Z;
  TYD_SERIAL_RTSCTS_FLOW : Z;
  TYD_SERIAL_PARITY_MASK : Z;
  TYD_SERIAL_ODD_PARITY : Z;
  TYD_SERIAL_EVEN_PARITY : Z;
  TYD_SERIAL_NOHUP_CLOSE : Z;
  EIO : Z;
  (** the value [ty_error(err, fmt, ...)] returns *)
  ty_error : Z -> string -> Z;
  (** [strtoul(s, NULL, 10)] and [strtol(s, NULL, 10)]: the value and [errno] *)
  strtoul : string -> Z * Z;
  strtol : string -> Z * Z;
  (** [parse_main_option(argc, argv, c)] of main.c *)
  parse_main_option : Z -> Z
}.

(** The capabilities of a board ([tyb_board_capability]); these are the two
    the sources name. *)
Inductive tyb_board_capability :=
| TYB_BOARD_CAPABILITY_UNIQUE
| TYB_BOARD_CAPABILITY_SERIAL.

(** ** Descriptor sets *)

Definition ty_descriptor := Z.

(** Modelled from the spec: [ty_descriptor_set] and its operations belong to
    libty and are not in the sources.  The spec gives an ordered collection of
    (native wait-handle, tag) pairs with add, remove-by-tag, clear and the
    merge of another component's descriptors under a given tag. *)
Definition ty_descriptor_set := list (ty_descriptor * Z).

(** Modelled from the spec: clear leaves no descriptor. *)
Definition ty_descriptor_set_clear : ty_descriptor_set := [].

(** Modelled from the spec: add puts one descriptor, under its tag, at the end. *)
Definition ty_descriptor_set_add (set : ty_descriptor_set) (desc : ty_descriptor) (id : Z)
  : ty_descriptor_set :=
  set ++ [(desc, id)].

(** Modelled from the spec: remove-by-tag takes out every descriptor under
    the tag and keeps the order of the others. *)
Definition ty_descriptor_set_remove (set : ty_descriptor_set) (id : Z) : ty_descriptor_set :=
  filter (fun e => negb (snd e =? id)) set.

(** Modelled from the spec: the merge that [tyb_monitor_get_descriptors] and
    [tyb_board_get_descriptors] do, all of [descs] under the one tag. *)
Definition ty_descriptor_set_merge (set : ty_descriptor_set) (descs : list ty_descriptor) (id : Z)
  : ty_descriptor_set :=
  set ++ map (fun d => (d, id)) descs.

(** [set.count] *)
Definition count (set : ty_descriptor_set) : Z := Z.of_nat (List.length set).

(** Is some descriptor of the set registered under tag [id]? *)
Definition has_tag (id : Z) (set : ty_descriptor_set) : bool :=
  existsb (fun e => snd e =? id) set.

(** ** Waiting for a capability *)


Module Tyc.

(** *** The static globals of monitor.c *)

Definition MONITOR_OPTION_NORESET : Z := 0x200.
Definition MONITOR_OPTION_TIMEOUT_EOF : Z := 0x201.

Definition DIRECTION_INPUT : Z := 1.
Definition DIRECTION_OUTPUT : Z := 2.

Definition BUFFER_SIZE : Z := 1024.
Definition ERROR_IO_TIMEOUT : Z := 5000.

Definition STDIN_FILENO : Z := 0.

Record globals := {
  terminal_flags : Z;
  device_rate : Z;
  device_flags : Z;
  directions : Z;
  reconnect : bool;
  timeout_eof : Z
}.

(** The initialisers of the static variables. *)
Definition initial_globals : globals :=
  {| terminal_flags := 0;
     device_rate := 115200;
     device_flags := 0;
     directions := Z.lor DIRECTION_INPUT DIRECTION_OUTPUT;
     reconnect := false;
     timeout_eof := 200 |}.

Definition with_terminal_flags (g : globals) (v : Z) : globals :=
  {| terminal_flags := v; device_rate := device_rate g; device_flags := device_flags g;
     directions := directions g; reconnect := reconnect g; timeout_eof := timeout_eof g |}.

Definition with_device_rate (g : globals) (v : Z) : globals :=
  {| terminal_flags := terminal_flags g; device_rate := v; device_flags := device_flags g;
     directions := directions g; reconnect := reconnect g; timeout_eof := timeout_eof g |}.

Definition with_device_flags (g : globals) (v : Z) : globals :=
  {| terminal_flags := terminal_flags g; device_rate := device_rate g; device_flags := v;
     directions := directions g; reconnect := reconnect g; timeout_eof := timeout_eof g |}.

Definition with_directions (g : globals) (v : Z) : globals :=
  {| terminal_flags := terminal_flags g; device_rate := device_rate g;
     device_flags := device_flags g;
     directions := v; reconnect := reconnect g; timeout_eof := timeout_eof g |}.

Definition with_reconnect (g : globals) (v : bool) : globals :=
  {| terminal_flags := terminal_flags g; device_rate := device_rate g;
     device_flags := device_flags g;
     directions := directions g; reconnect := v; timeout_eof := timeout_eof g |}.

Definition with_timeout_eof (g : globals) (v : Z) : globals :=
  {| terminal_flags := terminal_flags g; device_rate := device_rate g;
     device_flags := device_flags g;
     directions := directions g; reconnect := reconnect g; timeout_eof := v |}.

(** *** The option switch of [monitor()] *)

(** What one turn of the [while ((c = getopt_long(...)) != -1)] loop does:
    either [monitor()] returns, or the globals are updated and the loop goes
    on with the next option. *)
Inductive parsed :=
| Return (r : Z)
| Next (g : globals).

Definition strcmp0 (a b : string) : bool := String.eqb a b.

Section Options.

Context (H : ty_h).

(** [case 'f':] up to its [break]. *)
Definition case_f (optarg : string) (g : globals) : parsed :=
  let flags := Z.land (device_flags g) (Z.lnot (TYD_SERIAL_FLOW_MASK H)) in
  if strcmp0 optarg "x" || strcmp0 optarg "xonxoff" then
    Next (with_device_flags g (Z.lor flags (TYD_SERIAL_XONXOFF_FLOW H)))
  else if strcmp0 optarg "h" || strcmp0 optarg "rtscts" then
    Next (with_device_flags g (Z.lor flags (TYD_SERIAL_RTSCTS_FLOW H)))
  else if negb (strcmp0 optarg "n") && strcmp0 optarg "none" then
    Return (ty_error H (TY_ERROR_PARAM H)
                     "--flow must be one off x (xonxoff), h (rtscts) or n (none)")
  else
    Next (with_device_flags g flags).

(** [case 'd':].  The case has no [break]: when it does not return, control
    runs on into [case 'f':] with the same [optarg]. *)
Definition case_d (optarg : string) (g : globals) : parsed :=
  let flags := Z.land (device_flags g) (Z.lnot (TYD_SERIAL_CSIZE_MASK H)) in
  if strcmp0 optarg "5" then
    case_f optarg (with_device_flags g (Z.lor flags (TYD_SERIAL_5BITS_CSIZE H)))
  else if strcmp0 optarg "6" then
    case_f optarg (with_device_flags g (Z.lor flags (TYD_SERIAL_6BITS_CSIZE H)))
  else if strcmp0 optarg "7" then
    case_f optarg (with_device_flags g (Z.lor flags (TYD_SERIAL_7BITS_CSIZE H)))
  else if negb (strcmp0 optarg "8") then
    Return (ty_error H (TY_ERROR_PARAM H) "--databits must be one off 5, 6, 7 or 8")
  else
    case_f optarg (with_device_flags g flags).

(** What [case 'd':] itself makes of the flags for one of its four valid
    arguments, before control runs on. *)
Definition databits_flags (optarg : string) (flags : Z) : Z :=
  let flags := Z.land flags (Z.lnot (TYD_SERIAL_CSIZE_MASK H)) in
  if strcmp0 optarg "5" then Z.lor flags (TYD_SERIAL_5BITS_CSIZE H)
  else if strcmp0 optarg "6" then Z.lor flags (TYD_SERIAL_6BITS_CSIZE H)
  else if strcmp0 optarg "7" then Z.lor flags (TYD_SERIAL_7BITS_CSIZE H)
  else flags.

Definition case_p (optarg : string) (g : globals) : parsed :=
  let flags := Z.land (device_flags g) (Z.lnot (TYD_SERIAL_PARITY_MASK H)) in
  if strcmp0 optarg "o" || strcmp0 optarg "odd" then
    Next (with_device_flags g (Z.lor flags (TYD_SERIAL_ODD_PARITY H)))
  else if strcmp0 optarg "e" || strcmp0 optarg "even" then
    Next (with_device_flags g (Z.lor flags (TYD_SERIAL_EVEN_PARITY H)))
  else if negb (strcmp0 optarg "n") && negb (strcmp0 optarg "none") then
    Return (ty_error H (TY_ERROR_PARAM H)
                     "--parity must be one off o (odd), e (even) or n (none)")
  else
    Next (with_device_flags g flags).

Definition case_D (optarg : string) (g : globals) : parsed :=
  if strcmp0 optarg "input" then Next (with_directions g DIRECTION_INPUT)
  else if strcmp0 optarg "output" then Next (with_directions g DIRECTION_OUTPUT)
  else if strcmp0 optarg "both" then
    Next (with_directions g (Z.lor DIRECTION_INPUT DIRECTION_OUTPUT))
  else
    Return (ty_error H (TY_ERROR_PARAM H) "--direction must be one off input, output or both").

Definition case_b (optarg : string) (g : globals) : parsed :=
  let '(v, errno) := strtoul H optarg in
  let g := with_device_rate g (to_uint32 v) in
  if errno =? 0 then Next g
  else Return (ty_error H (TY_ERROR_PARAM H) "--baud requires a number").

Definition case_timeout_eof (optarg : string) (g : globals) : parsed :=
  let '(v, errno) := strtol H optarg in
  let t := to_int v in
  if negb (errno =? 0) then Return (ty_error H (TY_ERROR_PARSE H) "--timeout requires a number")
  else if t <? 0 then Next (with_timeout_eof g (-1))
  else Next (with_timeout_eof g t).

(** The body of the [switch (c)]; [c] is what [getopt_long] returned (a
    character code or one of the two long-only option numbers) and
    [optarg] its argument. *)
Definition monitor_option (c : Z) (optarg : string) (g : globals) : parsed :=
  if c =? 115 (* 's' *) then
    Next (with_terminal_flags g (Z.lor (terminal_flags g) (TY_TERMINAL_SILENT H)))
  else if c =? 114 (* 'r' *) then
    Next (with_terminal_flags g (Z.lor (terminal_flags g) (TY_TERMINAL_RAW H)))
  else if c =? 68 (* 'D' *) then case_D optarg g
  else if c =? 98 (* 'b' *) then case_b optarg g
  else if c =? 100 (* 'd' *) then case_d optarg g
  else if c =? 102 (* 'f' *) then case_f optarg g
  else if c =? MONITOR_OPTION_NORESET then
    Next (with_device_flags g (Z.lor (device_flags g) (TYD_SERIAL_NOHUP_CLOSE H)))
  else if c =? 112 (* 'p' *) then case_p optarg g
  else if c =? 82 (* 'R' *) then Next (with_reconnect g true)
  else if c =? MONITOR_OPTION_TIMEOUT_EOF then case_timeout_eof optarg g
  else
    let r := parse_main_option H c in
    if r <=? 0 then Return r else Next g.

(** The [while] loop over the options [getopt_long] hands out, in order. *)
Fixpoint monitor_options (opts : list (Z * string)) (g : globals) : parsed :=
  match opts with
  | [] => Next g
  | (c, optarg) :: rest =>
      match monitor_option c optarg g with
      | Return r => Return r
      | Next g' => monitor_options rest g'
      end
  end.

End Options.

(** *** The calls [loop()] makes *)

(** One constructor per function [loop()] and [fill_descriptor_set()] call
    outside this file; the index is the type of what the call hands back. *)
Variant sessionE : Type -> Type :=
| SerialSetAttributes (rate flags : Z) : sessionE Z
    (** [tyb_board_serial_set_attributes(board, rate, flags)] *)
| MonitorGetDescriptors : sessionE (list ty_descriptor)
    (** the descriptors [tyb_monitor_get_descriptors] contributes *)
| BoardGetDescriptors (cap : tyb_board_capability) : sessionE (list ty_descriptor)
    (** the descriptors [tyb_board_get_descriptors] contributes *)
| Printf (msg : string) : sessionE unit
| TyPoll (set : ty_descriptor_set) (timeout : Z) : sessionE Z
    (** [ty_poll(&set, timeout)] *)
| MonitorRefresh : sessionE Z
    (** [tyb_monitor_refresh(manager)] *)
| BoardHasCapability (cap : tyb_board_capability) : sessionE bool
| BoardWaitFor (cap : tyb_board_capability) (arg3 : bool) (timeout : Z) : sessionE Z
    (** [tyb_board_wait_for(board, cap, arg3, timeout)] *)
| SerialRead (size timeout : Z) : sessionE (Z * list Byte.byte)
    (** [tyb_board_serial_read]: the result and the bytes left in [buf] *)
| Write (fd : Z) (data : list Byte.byte) : sessionE (Z * Z)
    (** [write(fd, buf, n)]: the result and [errno] *)
| Read (fd size : Z) : sessionE (Z * list Byte.byte * Z)
    (** [read(fd, buf, size)]: the result, the bytes left in [buf] and [errno] *)
| SerialWrite (data : list Byte.byte) : sessionE Z.
    (** [tyb_board_serial_write(board, buf, n)] *)

(** The locals of [loop()] that live across the passes of its [while]. *)
Record locals := {
  set : ty_descriptor_set;
  timeout : Z;
  buf : list Byte.byte
}.

(** The two places control can be at between passes: the [restart:] label
    (only [buf] carries over, [set] and [timeout] are assigned afresh) and the
    head of [while (true)]. *)
Inductive label :=
| Restart (buf : list Byte.byte)
| While (l : locals).

(** A call that stores its bytes at the front of [buf]. *)
Definition store (data buf : list Byte.byte) : list Byte.byte :=
  firstn (Z.to_nat BUFFER_SIZE) (data ++ skipn (List.length data) buf).

Definition nl : string := String (ascii_of_nat 10) EmptyString.

Section Session.

Context (H : ty_h) (g : globals) (outfd : Z).

Definition fill_descriptor_set : itree sessionE ty_descriptor_set :=
  let set := ty_descriptor_set_clear in
  descs <- ITree.trigger MonitorGetDescriptors;;
  let set := ty_descriptor_set_merge set descs 1 in
  set <- (if negb (Z.land (directions g) DIRECTION_INPUT =? 0) then
            descs <- ITree.trigger (BoardGetDescriptors TYB_BOARD_CAPABILITY_SERIAL);;
            Ret (ty_descriptor_set_merge set descs 2)
          else Ret set);;
  if negb (Z.land (directions g) DIRECTION_OUTPUT =? 0) then
    Ret (ty_descriptor_set_add set STDIN_FILENO 3)
  else Ret set.

(** From [restart:] to the [while]. *)
Definition restart_block (buf : list Byte.byte) : itree sessionE (label + Z) :=
  r <- ITree.trigger (SerialSetAttributes (device_rate g) (device_flags g));;
  if r <? 0 then Ret (inr (to_int r)) else
  set <- fill_descriptor_set;;
  ITree.trigger (Printf (String.append "Connection ready" nl));;
  Ret (inl (While {| set := set; timeout := -1; buf := buf |})).

(** The [break] of a [case]: on to the next pass of the [while]. *)
Definition break (set : ty_descriptor_set) (timeout : Z) (buf : list Byte.byte)
  : itree sessionE (label + Z) :=
  Ret (inl (While {| set := set; timeout := timeout; buf := buf |})).

Definition case_1 (l : locals) : itree sessionE (label + Z) :=
  r <- ITree.trigger MonitorRefresh;;
  if r <? 0 then Ret (inr (to_int r)) else
  has <- ITree.trigger (BoardHasCapability TYB_BOARD_CAPABILITY_SERIAL);;
  if negb has then
    if negb (reconnect g) then Ret (inr 0) else
    ITree.trigger (Printf (String.append "Waiting for device..." nl));;
    r <- ITree.trigger (BoardWaitFor TYB_BOARD_CAPABILITY_SERIAL false (-1));;
    if r <? 0 then Ret (inr (to_int r)) else
    Ret (inl (Restart (buf l)))
  else break (set l) (timeout l) (buf l).

Definition case_2 (l : locals) : itree sessionE (label + Z) :=
  '(r, data) <- ITree.trigger (SerialRead BUFFER_SIZE 0);;
  let buf := store data (buf l) in
  if r <? 0 then
    if (r =? TY_ERROR_IO H) && reconnect g then
      let timeout := ERROR_IO_TIMEOUT in
      let set := ty_descriptor_set_remove (set l) 2 in
      let set := ty_descriptor_set_remove set 3 in
      break set timeout buf
    else Ret (inr (to_int r))
  else
  '(r, errno) <- ITree.trigger (Write outfd (firstn (Z.to_nat r) buf));;
  if r <? 0 then
    if errno =? EIO H then Ret (inr (ty_error H (TY_ERROR_IO H) "I/O error on standard output"))
    else Ret (inr (ty_error H (TY_ERROR_IO H) "Failed to write to standard output: %s"))
  else break (set l) (timeout l) buf.

Definition case_3 (l : locals) : itree sessionE (label + Z) :=
  '(r, data, errno) <- ITree.trigger (Read STDIN_FILENO BUFFER_SIZE);;
  let buf := store data (buf l) in
  if r <? 0 then
    if errno =? EIO H then Ret (inr (ty_error H (TY_ERROR_IO H) "I/O error on standard input"))
    else Ret (inr (ty_error H (TY_ERROR_IO H) "Failed to read from standard input: %s"))
  else if r =? 0 then
    if timeout_eof g >=? 0 then
      let timeout := timeout_eof g in
      let set := ty_descriptor_set_remove (set l) 1 in
      let set := ty_descriptor_set_remove set 3 in
      break set timeout buf
    else break (set l) (timeout l) buf
  else
  r <- ITree.trigger (SerialWrite (firstn (Z.to_nat r) buf));;
  if r <? 0 then
    if (r =? TY_ERROR_IO H) && reconnect g then
      let timeout := ERROR_IO_TIMEOUT in
      let set := ty_descriptor_set_remove (set l) 2 in
      let set := ty_descriptor_set_remove set 3 in
      break set timeout buf
    else Ret (inr (to_int r))
  else break (set l) (timeout l) buf.

(** One pass of [while (true)]. *)
Definition while_body (l : locals) : itree sessionE (label + Z) :=
  if count (set l) =? 0 then Ret (inr 0) else
  r <- ITree.trigger (TyPoll (set l) (timeout l));;
  if r <? 0 then Ret (inr (to_int r)) else
  if r =? 0 then Ret (inr 0)
  else if r =? 1 then case_1 l
  else if r =? 2 then case_2 l
  else if r =? 3 then case_3 l
  else break (set l) (timeout l) (buf l).

Definition loop_step (at_ : label) : itree sessionE (label + Z) :=
  match at_ with
  | Restart buf => restart_block buf
  | While l => while_body l
  end.

(** [loop()] entered at [at_]: [loop_step] again and again until it
    returns. *)
Definition loop_from (at_ : label) : itree sessionE Z :=
  ITree.iter loop_step at_.

(** [loop(board, outfd)]; [buf] is what the uninitialised array holds. *)
Definition loop (buf : list Byte.byte) : itree sessionE Z :=
  loop_from (Restart buf).

End Session.

(** *** What the option switch keeps true of the globals *)


(** The spellings the usage text gives for each option. *)
Definition parity_values : list string := ["o"; "odd"; "e"; "even"; "n"; "none"].
Definition direction_values : list string := ["input"; "output"; "both"].
Definition databits_values : list string := ["5"; "6"; "7"; "8"].

End Tyc.

(** ** Runs of an interaction tree *)

Module Run.

Import Tyc.

(** One call together with what the environment answered. *)
Inductive event :=
| Ev : forall A : Type, sessionE A -> A -> event.
Arguments Ev {A}.

(** [exec t tr t']: when the environment answers as [tr] records, [t] makes
    exactly the calls of [tr], in order, and is then left as [t']. *)
Inductive exec {R : Type} : itree sessionE R -> list event -> itree sessionE R -> Prop :=
| exec_done t : exec t [] t
| exec_tau t u tr t' : observe t = TauF u -> exec u tr t' -> exec t tr t'
| exec_vis t A (e : sessionE A) k a tr t' :
    observe t = VisF e k -> exec (k a) tr t' -> exec t (Ev e a :: tr) t'.

(** [finishes t tr r]: answered as in [tr], [t] makes the calls of [tr] and
    then returns [r]. *)
Definition finishes {R : Type} (t : itree sessionE R) (tr : list event) (r : R) : Prop :=
  exists t', exec t tr t' /\ observe t' = RetF r.

(** Modelled from the spec: [ty_poll] is libty's and not in the sources.  The
    spec gives [poll(set, timeout_ms) -> Ready(tag) | Timeout | Error], with a
    timeout of -1 waiting indefinitely: a negative result is an error, 0 is
    the timeout (which needs one to be set), and a positive result is the tag
    of a descriptor of the set. *)
Definition poll_ok (set : ty_descriptor_set) (timeout r : Z) : Prop :=
  r < 0 \/ (r = 0 /\ 0 <= timeout) \/ (0 < r /\ has_tag r set = true).

(** The answers the environment can give to a call. *)
Definition answer_ok {A : Type} (e : sessionE A) : A -> Prop :=
  match e in sessionE A return A -> Prop with
  | TyPoll set timeout => fun r => poll_ok set timeout r
  | _ => fun _ => True
  end.

Definition event_ok (ev : event) : Prop :=
  match ev with Ev e a => answer_ok e a end.

(** The calls of [case 1:] and of the [restart:] block: those that go through
    the board's monitor or set the connection up again. *)
Definition monitor_call {A : Type} (e : sessionE A) : bool :=
  match e with
  | MonitorRefresh | BoardHasCapability _ | BoardWaitFor _ _ _
  | SerialSetAttributes _ _ | MonitorGetDescriptors | BoardGetDescriptors _ => true
  | _ => false
  end.

Definition monitor_event (ev : event) : bool :=
  match ev with Ev e _ => monitor_call e end.

(** A tree is quiet when, however the environment answers within
    [answer_ok], it never makes a [monitor_call].  [quietF] is one unfolding
    of that, [quiet] its greatest fixed point. *)
Definition quietF (r : itree sessionE Z -> Prop) (t : itree sessionE Z) : Prop :=
  match observe t with
  | RetF _ => True
  | TauF u => r u
  | VisF e k => monitor_call e = false /\ forall a, answer_ok e a -> r (k a)
  end.

Definition quiet : itree sessionE Z -> Prop := paco1 quietF bot1.

(** An environment that gives the same answer to every call of one result
    type; [oracle_for e a] is one that answers [a] to [e]. *)
Record answers := {
  a_int : Z;
  a_bool : bool;
  a_descs : list ty_descriptor;
  a_read : Z * list Byte.byte;
  a_write : Z * Z;
  a_input : Z * list Byte.byte * Z
}.

Definition no_answers : answers :=
  {| a_int := 0; a_bool := false; a_descs := []; a_read := (0, []); a_write := (0, 0);
     a_input := (0, [], 0) |}.

Definition oracle (o : answers) (A : Type) (e : sessionE A) : A :=
  match e in sessionE A return A with
  | SerialSetAttributes _ _ => a_int o
  | MonitorGetDescriptors => a_descs o
  | BoardGetDescriptors _ => a_descs o
  | Printf _ => tt
  | TyPoll _ _ => a_int o
  | MonitorRefresh => a_int o
  | BoardHasCapability _ => a_bool o
  | BoardWaitFor _ _ _ => a_int o
  | SerialRead _ _ => a_read o
  | Write _ _ => a_write o
  | Read _ _ => a_input o
  | SerialWrite _ => a_int o
  end.

Definition oracle_for {A : Type} (e : sessionE A) : A -> answers :=
  match e in sessionE A return A -> answers with
  | SerialSetAttributes _ _ | TyPoll _ _ | MonitorRefresh | BoardWaitFor _ _ _ | SerialWrite _ =>
      fun a => {| a_int := a; a_bool := false; a_descs := []; a_read := (0, []);
                  a_write := (0, 0); a_input := (0, [], 0) |}
  | MonitorGetDescriptors | BoardGetDescriptors _ =>
      fun a => {| a_int := 0; a_bool := false; a_descs := a; a_read := (0, []);
                  a_write := (0, 0); a_input := (0, [], 0) |}
  | Printf _ => fun _ => no_answers
  | BoardHasCapability _ =>
      fun a => {| a_int := 0; a_bool := a; a_descs := []; a_read := (0, []);
                  a_write := (0, 0); a_input := (0, [], 0) |}
  | SerialRead _ _ =>
      fun a => {| a_int := 0; a_bool := false; a_descs := []; a_read := a;
                  a_write := (0, 0); a_input := (0, [], 0) |}
  | Write _ _ =>
      fun a => {| a_int := 0; a_bool := false; a_descs := []; a_read := (0, []);
                  a_write := a; a_input := (0, [], 0) |}
  | Read _ _ =>
      fun a => {| a_int := 0; a_bool := false; a_descs := []; a_read := (0, []);
                  a_write := (0, 0); a_input := a |}
  end.

(** Where a tree goes when the oracle answers its first call. *)
Definition resume {R : Type} (o : answers) (ot : itree' sessionE R) : option (itree sessionE R) :=
  match ot with
  | VisF e k => Some (k (oracle o _ e))
  | _ => None
  end.

(** Does the event record the oracle's answer? *)
Definition agrees (o : answers) (ev : event) : Prop :=
  match ev with Ev e a => a = oracle o _ e end.

(** *** The traces and states the facts below speak of *)

Section Traces.

Context (H : ty_h) (g : globals) (outfd : Z).

(** What [ITree.iter] does with the result of one [loop_step]. *)
Definition after_step (lr : label + Z) : itree sessionE Z :=
  match lr with
  | inl l => Tau (loop_from H g outfd l)
  | inr r => Ret r
  end.

(** The set [fill_descriptor_set] builds from the descriptors [md] of the
    monitor and [bd] of the board. *)
Definition filled (md bd : list ty_descriptor) : ty_descriptor_set :=
  let set := ty_descriptor_set_merge ty_descriptor_set_clear md 1 in
  let set := if negb (Z.land (directions g) DIRECTION_INPUT =? 0)
             then ty_descriptor_set_merge set bd 2 else set in
  if negb (Z.land (directions g) DIRECTION_OUTPUT =? 0)
  then ty_descriptor_set_add set STDIN_FILENO 3 else set.

(** The calls from [restart:] to the [while], the attributes answered [a]. *)
Definition restarted (a : Z) (md bd : list ty_descriptor) : list event :=
  [Ev (SerialSetAttributes (device_rate g) (device_flags g)) a;
   Ev MonitorGetDescriptors md]
  ++ (if negb (Z.land (directions g) DIRECTION_INPUT =? 0)
      then [Ev (BoardGetDescriptors TYB_BOARD_CAPABILITY_SERIAL) bd] else [])
  ++ [Ev (Printf (String.append "Connection ready" nl)) tt].

(** The monitor's descriptor is ready, the refresh answers [r] and the
    board has lost its serial capability. *)
Definition seen_lost (l : locals) (r : Z) : list event :=
  [Ev (TyPoll (set l) (timeout l)) 1; Ev MonitorRefresh r;
   Ev (BoardHasCapability TYB_BOARD_CAPABILITY_SERIAL) false].

(** The message and the [tyb_board_wait_for] call of the source, answered [w]. *)
Definition waited (w : Z) : list event :=
  [Ev (Printf (String.append "Waiting for device..." nl)) tt;
   Ev (BoardWaitFor TYB_BOARD_CAPABILITY_SERIAL false (-1)) w].

(** The serial descriptor is ready and the read answers [r]. *)
Definition read_failed (l : locals) (r : Z) (data : list Byte.byte) : list event :=
  [Ev (TyPoll (set l) (timeout l)) 2; Ev (SerialRead BUFFER_SIZE 0) (r, data)].

(** The locals after an I/O error under [--reconnect]. *)
Definition backoff (l : locals) (buf : list Byte.byte) : locals :=
  {| set := ty_descriptor_set_remove (ty_descriptor_set_remove (set l) 2) 3;
     timeout := ERROR_IO_TIMEOUT;
     buf := buf |}.

(** Standard input is ready and the read answers 0 bytes. *)
Definition eof_seen (l : locals) (data : list Byte.byte) (errno : Z) : list event :=
  [Ev (TyPoll (set l) (timeout l)) 3; Ev (Read STDIN_FILENO BUFFER_SIZE) (0, data, errno)].

(** The locals after end of input with a grace period. *)
Definition draining (l : locals) (buf : list Byte.byte) : locals :=
  {| set := ty_descriptor_set_remove (ty_descriptor_set_remove (set l) 1) 3;
     timeout := timeout_eof g;
     buf := buf |}.

End Traces.

(** One pass is quiet towards [P]: whatever the answers within
    [answer_ok], it makes no [monitor_call] and, when it does not return, it
    hands over to a place that satisfies [P]. *)
Inductive quiet_pass (P : label -> Prop) : itree sessionE (label + Z) -> Prop :=
| qp_return t r : observe t = RetF (inr r) -> quiet_pass P t
| qp_next t at_ : observe t = RetF (inl at_) -> P at_ -> quiet_pass P t
| qp_tau t u : observe t = TauF u -> quiet_pass P u -> quiet_pass P t
| qp_vis t A (e : sessionE A) k :
    observe t = VisF e k -> monitor_call e = false ->
    (forall a, answer_ok e a -> quiet_pass P (k a)) -> quiet_pass P t.

(** At the head of the [while] with no descriptor under tag 1 in the set. *)
Definition blind (at_ : label) : Prop :=
  exists l, at_ = While l /\ has_tag 1 (set l) = false.

(** *** Calls a session never makes, and what a pass hands over *)

Definition bad_event (bad : forall A, sessionE A -> bool) (ev : event) : bool :=
  match ev with Ev e _ => bad _ e end.

Definition ok_event (ok : forall A, sessionE A -> A -> Prop) (ev : event) : Prop :=
  match ev with Ev e a => ok _ e a end.

(** Every answer is possible. *)
Definition any_answer (A : Type) (e : sessionE A) (a : A) : Prop := True.

(** The answers [answer_ok] allows. *)
Definition ok_answer (A : Type) (e : sessionE A) (a : A) : Prop := answer_ok e a.

(** No call is excluded. *)
Definition any_call (A : Type) (e : sessionE A) : bool := false.

(** [pass_spec ok bad Q t]: whatever the answers within [ok], the pass [t]
    makes no call that [bad] marks and what it ends with satisfies [Q]. *)
Inductive pass_spec (ok : forall A, sessionE A -> A -> Prop)
          (bad : forall A, sessionE A -> bool) (Q : label + Z -> Prop)
  : itree sessionE (label + Z) -> Prop :=
| ps_ret t r : observe t = RetF r -> Q r -> pass_spec ok bad Q t
| ps_tau t u : observe t = TauF u -> pass_spec ok bad Q u -> pass_spec ok bad Q t
| ps_vis t A (e : sessionE A) k :
    observe t = VisF e k -> bad A e = false ->
    (forall a, ok A e a -> pass_spec ok bad Q (k a)) -> pass_spec ok bad Q t.

(** A pass may return, or go on to a place where [P] holds. *)
Definition goes_to (P : label -> Prop) (lr : label + Z) : Prop :=
  match lr with
  | inl at_ => P at_
  | inr _ => True
  end.

(** [never ok bad t]: whatever the answers within [ok], and for as long as
    [t] runs, it makes no call that [bad] marks. *)
Definition neverF (ok : forall A, sessionE A -> A -> Prop)
           (bad : forall A, sessionE A -> bool)
           (r : itree sessionE Z -> Prop) (t : itree sessionE Z) : Prop :=
  match observe t with
  | RetF _ => True
  | TauF u => r u
  | VisF e k => bad _ e = false /\ forall a, ok _ e a -> r (k a)
  end.

Definition never (ok : forall A, sessionE A -> A -> Prop)
           (bad : forall A, sessionE A -> bool) : itree sessionE Z -> Prop :=
  paco1 (neverF ok bad) bot1.

(** The wait for the board to come back and the calls of [restart:]. *)
Definition reconnects (A : Type) (e : sessionE A) : bool :=
  match e with
  | BoardWaitFor _ _ _ | SerialSetAttributes _ _
  | MonitorGetDescriptors | BoardGetDescriptors _ => true
  | _ => false
  end.

(** Past [restart:], at the head of the [while]. *)
Definition in_while (at_ : label) : Prop :=
  match at_ with
  | Restart _ => False
  | While _ => True
  end.

(** The two calls of [case 3:]: the read of standard input and the write to
    the board. *)
Definition takes_input (A : Type) (e : sessionE A) : bool :=
  match e with
  | Read _ _ | SerialWrite _ => true
  | _ => false
  end.


Section Invariants.

Context (g : globals).

(** The three timeouts the source assigns. *)
Definition known_timeout (t : Z) : bool :=
  (t =? -1) || (t =? timeout_eof g) || (t =? ERROR_IO_TIMEOUT).

(** A poll with any other timeout. *)
Definition polls_otherwise (A : Type) (e : sessionE A) : bool :=
  match e with
  | TyPoll _ t => negb (known_timeout t)
  | _ => false
  end.

Definition timeout_known (at_ : label) : Prop :=
  match at_ with
  | Restart _ => True
  | While l => known_timeout (timeout l) = true
  end.

(** No descriptor under tag [id] in the set, once the [while] is reached. *)
Definition without_tag (id : Z) (at_ : label) : Prop :=
  match at_ with
  | Restart _ => True
  | While l => has_tag id (set l) = false
  end.

(** What one pass of the [while] can hand over when it started with [l]. *)
Definition narrowed (l : locals) (lr : label + Z) : Prop :=
  match lr with
  | inr _ => True
  | inl (Restart b) => b = buf l
  | inl (While l') =>
      incl (set l') (set l)
      /\ (timeout l' = timeout l \/ timeout l' = timeout_eof g
          \/ timeout l' = ERROR_IO_TIMEOUT)
  end.

End Invariants.



(** Input is read and the write to the board answers [w]. *)
Definition forwarded (l : locals) (r : Z) (data : list Byte.byte) (errno w : Z)
  : list event :=
  [Ev (TyPoll (set l) (timeout l)) 3; Ev (Read STDIN_FILENO BUFFER_SIZE) (r, data, errno);
   Ev (SerialWrite (firstn (Z.to_nat r) (store data (buf l)))) w].

End Run.

(** ** The Qt [Monitor] of libtyqt *)

Module TyQt.

(** What undefined behaviour would be in C++ is a result of its own. *)
Inductive result (A : Type) :=
| Value (a : A)
| Undefined.
Arguments Value {A}.
Arguments Undefined {A}.

(** A [ty_board *] of the backend: the address is what pointers are
    compared by; the other two fields are what [Board::hasCapability
    (TY_BOARD_CAPABILITY_UNIQUE)] and [Board::id()] report of it. *)
Record ty_board := {
  address : Z;
  unique : bool;
  identity : string
}.

Inductive ty_monitor_event :=
| TY_MONITOR_EVENT_ADDED
| TY_MONITOR_EVENT_CHANGED
| TY_MONITOR_EVENT_DISAPPEARED
| TY_MONITOR_EVENT_DROPPED.

(** A [Board] object: the handle it wraps and the scoped stores
    [handleAddedEvent] gives it (named by the board's id). *)
Record Board := {
  board_ : ty_board;
  database_ : option string;
  cache_ : option string
}.

(** The signals of [Board] that [handleAddedEvent] connects. *)
Inductive board_signal :=
| infoChanged
| interfacesChanged
| statusChanged
| progressChanged
| dropped.

(** Calls into the backend, the serial thread and the notifier, and the
    notifications of the list model, in the order they are made. *)
Inductive effect :=
| ty_monitor_new (r : Z)
| ty_monitor_free
| ty_monitor_register_callback (r : Z)
| ty_monitor_get_descriptors
| setDescriptorSet
| connect_activated
| serial_thread_start
| serial_thread_quit
| serial_thread_wait
| ty_monitor_start (r : Z)
| ty_monitor_stop
| setEnabled (b : bool)
| beginRemoveRows (first last : Z)
| endRemoveRows
| beginInsertRows (first last : Z)
| endInsertRows
| loadSettings (b : Board)
| setThreadPool (b : Board)
| moveToThread (b : Board)
| connect_signals (b : Board)
| boardAdded (b : Board)
| refreshBoard (b : Board)
| dataChanged (row : Z).

Record Monitor := {
  started_ : bool;
  monitor_ : option Z;
  boards_ : list Board
}.

Definition with_boards (m : Monitor) (v : list Board) : Monitor :=
  {| started_ := started_ m; monitor_ := monitor_ m; boards_ := v |}.

(** What the backend answers during [start()]. *)
Record backend := {
  new_r : Z;
  new_monitor : Z;
  register_callback_r : Z;
  start_r : Z
}.

Definition size (v : list Board) : Z := Z.of_nat (List.length v).

(** The rows a [begin...Rows(parent, first, last)] of
    [QAbstractItemModel] announces: [first] to [last], both included. *)
Definition rows (first last : Z) : list Z :=
  map (fun i => first + Z.of_nat i) (seq 0 (Z.to_nat (last - first + 1))).

(** [Monitor::start()].  The calls into the backend are their results
    only: what the backend does to the monitor through the callback while
    [ty_monitor_start] runs is not part of this function. *)
Definition start (be : backend) (m : Monitor) : bool * Monitor * list effect :=
  if started_ m then (true, m, []) else
  let created :=
    match monitor_ m with
    | Some _ => inr (m, [])
    | None =>
        if new_r be <? 0 then inl [ty_monitor_new (new_r be)]
        else if register_callback_r be <? 0 then
          inl [ty_monitor_new (new_r be);
               ty_monitor_register_callback (register_callback_r be);
               ty_monitor_free]
        else
          inr ({| started_ := started_ m; monitor_ := Some (new_monitor be);
                  boards_ := boards_ m |},
               [ty_monitor_new (new_r be);
                ty_monitor_register_callback (register_callback_r be);
                ty_monitor_get_descriptors; setDescriptorSet; connect_activated])
    end in
  match created with
  | inl log => (false, m, log)
  | inr (m, log) =>
      if start_r be <? 0 then
        (false, m, log ++ [serial_thread_start; ty_monitor_start (start_r be)])
      else
        (true,
         {| started_ := true; monitor_ := monitor_ m; boards_ := boards_ m |},
         log ++ [serial_thread_start; ty_monitor_start (start_r be); setEnabled true])
  end.

Definition stop (m : Monitor) : Monitor * list effect :=
  if negb (started_ m) then (m, []) else
  let '(boards, removal) :=
    match boards_ m with
    | [] => (boards_ m, [])
    | _ :: _ => ([], [beginRemoveRows 0 (to_int (size (boards_ m))); endRemoveRows])
    end in
  ({| started_ := false; monitor_ := monitor_ m; boards_ := boards |},
   [serial_thread_quit; serial_thread_wait] ++ removal ++ [setEnabled false; ty_monitor_stop]).

Definition boards (m : Monitor) : list Board := boards_ m.

(** [boards_[i]]: no bounds check. *)
Definition at_ (v : list Board) (i : nat) : result Board :=
  match nth_error v i with
  | Some b => Value b
  | None => Undefined
  end.

(** [Monitor::board(unsigned int i)]; [None] is [nullptr]. *)
Definition board (m : Monitor) (i : N) : result (option Board) :=
  if (N.of_nat (List.length (boards_ m)) <=? i)%N then Value None
  else match at_ (boards_ m) (N.to_nat i) with
       | Value b => Value (Some b)
       | Undefined => Undefined
       end.

(** [boards_.size()] returned as [unsigned int]. *)
Definition boardCount (m : Monitor) : N :=
  (N.of_nat (List.length (boards_ m)) mod 2 ^ 32)%N.

(** [find_if(begin, end, p) - begin]; the length of [v] is [end()]. *)
Fixpoint find_if (p : Board -> bool) (v : list Board) : nat :=
  match v with
  | [] => 0%nat
  | b :: v' => if p b then 0%nat else S (find_if p v')
  end.

Definition findBoardIterator (m : Monitor) (board : ty_board) : nat :=
  find_if (fun ptr => address (board_ ptr) =? address board) (boards_ m).

(** [boards_.erase(it)] for an iterator [it] before [end()]. *)
Definition erase (v : list Board) (it : nat) : list Board :=
  firstn it v ++ skipn (S it) v.

Definition make_Board (board : ty_board) : Board :=
  if unique board then
    {| board_ := board; database_ := Some (identity board); cache_ := Some (identity board) |}
  else {| board_ := board; database_ := None; cache_ := None |}.

Definition handleAddedEvent (m : Monitor) (board : ty_board) : Monitor * list effect :=
  let ptr := make_Board board in
  let n := to_int (size (boards_ m)) in
  (with_boards m (boards_ m ++ [ptr]),
   [loadSettings ptr; setThreadPool ptr; moveToThread ptr; connect_signals ptr;
    beginInsertRows n n; endInsertRows; boardAdded ptr]).

Definition refreshBoardItem (m : Monitor) (it : nat) : list effect :=
  [dataChanged (to_int (Z.of_nat it))].

(** Erasing at [end()] is undefined. *)
Definition removeBoardItem (m : Monitor) (it : nat) : result (Monitor * list effect) :=
  if (it <? List.length (boards_ m))%nat then
    let row := to_int (Z.of_nat it) in
    Value (with_boards m (erase (boards_ m) it), [beginRemoveRows row row; endRemoveRows])
  else Undefined.

(** The slots [handleAddedEvent] connects to the signals of a board. *)
Definition on_signal (m : Monitor) (board : ty_board) (s : board_signal)
  : result (Monitor * list effect) :=
  match s with
  | dropped => removeBoardItem m (findBoardIterator m board)
  | _ => Value (m, refreshBoardItem m (findBoardIterator m board))
  end.

(** Modelled from the spec: [Board::refreshBoard] is not in the sources.  By
    the spec a board the backend dropped fires its terminal dropped
    notification, and a changed or disappeared one a changed notification. *)
Definition refreshBoard_emits (event : ty_monitor_event) : board_signal :=
  match event with
  | TY_MONITOR_EVENT_DROPPED => dropped
  | _ => statusChanged
  end.

(** [handleChangedEvent(board)]; [signal] is what [ptr->refreshBoard()]
    emits. *)
Definition handleChangedEvent (m : Monitor) (board : ty_board) (signal : board_signal)
  : result (Monitor * list effect) :=
  let it := findBoardIterator m board in
  if (it =? List.length (boards_ m))%nat then Value (m, [])
  else
    match at_ (boards_ m) it with
    | Undefined => Undefined
    | Value ptr =>
        match on_signal m board signal with
        | Undefined => Undefined
        | Value (m', log) => Value (m', refreshBoard ptr :: log)
        end
    end.

Definition handleEvent (m : Monitor) (board : ty_board) (event : ty_monitor_event)
  : result (Monitor * list effect) :=
  match event with
  | TY_MONITOR_EVENT_ADDED => Value (handleAddedEvent m board)
  | TY_MONITOR_EVENT_CHANGED
  | TY_MONITOR_EVENT_DISAPPEARED
  | TY_MONITOR_EVENT_DROPPED => handleChangedEvent m board (refreshBoard_emits event)
  end.

(** The callbacks of one [ty_monitor_refresh], in order. *)
Fixpoint handleEvents (m : Monitor) (events : list (ty_board * ty_monitor_event))
  : result (Monitor * list effect) :=
  match events with
  | [] => Value (m, [])
  | (board, event) :: rest =>
      match handleEvent m board event with
      | Undefined => Undefined
      | Value (m', log) =>
          match handleEvents m' rest with
          | Undefined => Undefined
          | Value (m'', log') => Value (m'', log ++ log')
          end
      end
  end.

(** [Monitor::find(filter)]: the first board the filter accepts, or
    [nullptr]. *)
Definition find (m : Monitor) (filter : Board -> bool) : result (option Board) :=
  let it := find_if filter (boards_ m) in
  if (it =? List.length (boards_ m))%nat then Value None
  else match at_ (boards_ m) it with
       | Value b => Value (Some b)
       | Undefined => Undefined
       end.

(** [Monitor::rowCount]: [boards_.size()] returned as [int]. *)
Definition rowCount (m : Monitor) : Z := to_int (size (boards_ m)).

(** The boards that wrap the handle at [addr], in order. *)
Definition wrapping (addr : Z) (v : list Board) : list Board :=
  filter (fun ptr => address (board_ ptr) =? addr) v.

(** The row of the board that comes after those of [v1], as the [int] the
    views are given. *)
Definition row_after (v1 : list Board) : Z := to_int (Z.of_nat (List.length v1)).

(** The change in the number of rows that the notifications of a log
    announce to the views: the rows of each [beginInsertRows] counted up,
    those of each [beginRemoveRows] counted down. *)
Fixpoint announced (log : list effect) : Z :=
  match log with
  | [] => 0
  | beginInsertRows first last :: log' => Z.of_nat (List.length (rows first last)) + announced log'
  | beginRemoveRows first last :: log' => announced log' - Z.of_nat (List.length (rows first last))
  | _ :: log' => announced log'
  end.

End TyQt.

(** ** The helper macros of libhs *)

Module Hs.

(** [size_t] arithmetic, 64 bits wide. *)
Definition to_size_t (z : Z) : Z := z mod 2 ^ 64.

(** [_HS_ALIGN_SIZE(size, align)] of common_priv.h on [size_t] operands:
    [((size) + (align) - 1) / (align) * (align)], each operation wrapping. *)
Definition _HS_ALIGN_SIZE (size align : Z) : Z :=
  to_size_t (to_size_t (to_size_t (size + align) - 1) / align * align).

(** [_HS_ALIGN_SIZE_FOR_TYPE(size, type)]; [sizeof_type] is [sizeof(type)]. *)
Definition _HS_ALIGN_SIZE_FOR_TYPE (size sizeof_type : Z) : Z :=
  _HS_ALIGN_SIZE size sizeof_type.

End Hs.

(** ** Values to run the definitions on *)

Module Sample.

Import Tyc Run TyQt.

Fixpoint decimal (s : string) (acc : Z) : Z :=
  match s with
  | EmptyString => acc
  | String c s' => decimal s' (10 * acc + (Z.of_nat (nat_of_ascii c) - 48))
  end.

(** An instance of [ty_h]: negative, distinct error codes, disjoint flag
    bits, a [ty_error] that returns the code it is given, and decimal
    parsers that never set [errno]. *)
Definition libty : ty_h :=
  {| TY_ERROR_PARAM := -2;
     TY_ERROR_IO := -8;
     TY_ERROR_PARSE := -12;
     TY_TERMINAL_SILENT := 2;
     TY_TERMINAL_RAW := 1;
     TYD_SERIAL_CSIZE_MASK := 0x3;
     TYD_SERIAL_5BITS_CSIZE := 0x3;
     TYD_SERIAL_6BITS_CSIZE := 0x2;
     TYD_SERIAL_7BITS_CSIZE := 0x1;
     TYD_SERIAL_FLOW_MASK := 0x60;
     TYD_SERIAL_XONXOFF_FLOW := 0x20;
     TYD_SERIAL_RTSCTS_FLOW := 0x40;
     TYD_SERIAL_PARITY_MASK := 0xC;
     TYD_SERIAL_ODD_PARITY := 0x4;
     TYD_SERIAL_EVEN_PARITY := 0x8;
     TYD_SERIAL_NOHUP_CLOSE := 0x80;
     EIO := 5;
     ty_error := fun err _ => err;
     strtoul := fun s => (decimal s 0, 0);
     strtol := fun s => (decimal s 0, 0);
     parse_main_option := fun _ => 0 |}.

(** [tyc monitor --reconnect] *)
Definition with_R : globals := with_reconnect initial_globals true.


(** The locals at the head of the [while] right after [restart:], with one
    descriptor from the monitor (10), one from the board (11) and standard
    input. *)
Definition ready : locals :=
  {| set := [(10, 1); (11, 2); (STDIN_FILENO, 3)]; timeout := -1; buf := [] |}.

(** A session from its start to an I/O error on the serial read under
    [--reconnect], followed by the timeout of the poll that comes next. *)
Definition io_error_then_timeout : list event :=
  [Ev (SerialSetAttributes 115200 0) 0;
   Ev MonitorGetDescriptors [10];
   Ev (BoardGetDescriptors TYB_BOARD_CAPABILITY_SERIAL) [11];
   Ev (Printf (String.append "Connection ready" nl)) tt;
   Ev (TyPoll [(10, 1); (11, 2); (STDIN_FILENO, 3)] (-1)) 2;
   Ev (SerialRead BUFFER_SIZE 0) (-8, []);
   Ev (TyPoll [(10, 1)] ERROR_IO_TIMEOUT) 0].


(** What can follow end of input under [--reconnect] and the default
    grace period: one more byte from the device, then the timeout. *)
Definition after_eof : list event :=
  [Ev (TyPoll [(11, 2)] 200) 2;
   Ev (SerialRead BUFFER_SIZE 0) (1, [Byte.x41]);
   Ev (Write 1 [Byte.x41]) (1, 0);
   Ev (TyPoll [(11, 2)] 200) 0].



(** A session under [--reconnect] from its start: end of input, then an I/O
    error on the serial read. *)
Definition eof_then_io_error : list event :=
  [Ev (SerialSetAttributes 115200 0) 0;
   Ev MonitorGetDescriptors [10];
   Ev (BoardGetDescriptors TYB_BOARD_CAPABILITY_SERIAL) [11];
   Ev (Printf (String.append "Connection ready" nl)) tt;
   Ev (TyPoll [(10, 1); (11, 2); (STDIN_FILENO, 3)] (-1)) 3;
   Ev (Read STDIN_FILENO BUFFER_SIZE) (0, [], 0);
   Ev (TyPoll [(11, 2)] 200) 2;
   Ev (SerialRead BUFFER_SIZE 0) (-8, [])].

Definition dev_a : ty_board := {| address := 4096; unique := true; identity := "a" |}.
Definition dev_b : ty_board := {| address := 8192; unique := false; identity := "" |}.

Definition idle : Monitor := {| started_ := false; monitor_ := None; boards_ := [] |}.

Definition running : Monitor := {| started_ := true; monitor_ := Some 1; boards_ := [] |}.

(** A started monitor that holds one board. *)
Definition one_board : Monitor :=
  {| started_ := true; monitor_ := Some 1; boards_ := [make_Board dev_a] |}.

(** A started monitor that holds two. *)
Definition two_boards : Monitor :=
  {| started_ := true; monitor_ := Some 1; boards_ := [make_Board dev_a; make_Board dev_b] |}.

Definition answers_ok : backend :=
  {| new_r := 0; new_monitor := 1; register_callback_r := 0; start_r := 0 |}.

(** [tyc monitor --direction input] and [tyc monitor --direction output] *)
Definition input_only : globals := with_directions initial_globals DIRECTION_INPUT.

(** A session under [--direction input]: the set is filled without standard
    input, one byte comes from the board and goes to standard output. *)
Definition listening : list event :=
  [Ev (SerialSetAttributes 115200 0) 0;
   Ev MonitorGetDescriptors [10];
   Ev (BoardGetDescriptors TYB_BOARD_CAPABILITY_SERIAL) [11];
   Ev (Printf (String.append "Connection ready" nl)) tt;
   Ev (TyPoll [(10, 1); (11, 2)] (-1)) 2;
   Ev (SerialRead BUFFER_SIZE 0) (1, [Byte.x41]);
   Ev (Write 1 [Byte.x41]) (1, 0)].


(** A third handle, and a refresh of the backend that reports it added and
    the first board dropped. *)
Definition dev_c : ty_board := {| address := 12288; unique := true; identity := "c" |}.

Definition plug_and_unplug : list (ty_board * ty_monitor_event) :=
  [(dev_c, TY_MONITOR_EVENT_ADDED); (dev_a, TY_MONITOR_EVENT_DROPPED)].

(** A monitor that was started and stopped: the backend monitor is kept. *)
Definition stopped : Monitor := {| started_ := false; monitor_ := Some 1; boards_ := [] |}.

(** A backend whose [ty_monitor_start] fails. *)
Definition no_start : backend :=
  {| new_r := 0; new_monitor := 1; register_callback_r := 0; start_r := -1 |}.

(** A backend whose [ty_monitor_register_callback] fails. *)
Definition no_callback : backend :=
  {| new_r := 0; new_monitor := 1; register_callback_r := -1; start_r := 0 |}.



End Sample.

(** * Facts *)

Arguments to_int : simpl never.
Arguments to_uint32 : simpl never.
Arguments count : simpl never.
Arguments Tyc.store : simpl never.
Arguments ty_descriptor_set_remove : simpl never.

(** ** Machine integers and descriptor sets *)

Lemma to_int_id (z : Z) : is_int z -> to_int z = z.
Proof.
  unfold is_int, to_int. intros Hz.
  rewrite Z.mod_small by lia. lia.
Qed.

Lemma count_nonempty (s : ty_descriptor_set) : s <> [] -> (count s =? 0) = false.
Proof.
  destruct s as [| e s]; [congruence |]. intros _.
  unfold count. cbn [List.length]. apply Z.eqb_neq. lia.
Qed.

Lemma has_tag_remove_same (id : Z) (s : ty_descriptor_set) :
  has_tag id (ty_descriptor_set_remove s id) = false.
Proof.
  unfold has_tag, ty_descriptor_set_remove.
  induction s as [| e s IH]; [reflexivity |].
  cbn [filter]. destruct (snd e =? id) eqn:He; cbn [negb]; [exact IH |].
  cbn [existsb]. rewrite He. exact IH.
Qed.

Lemma has_tag_remove (id id' : Z) (s : ty_descriptor_set) :
  has_tag id s = false -> has_tag id (ty_descriptor_set_remove s id') = false.
Proof.
  unfold has_tag, ty_descriptor_set_remove.
  induction s as [| e s IH]; [reflexivity |].
  cbn [existsb filter]. intros Hs. apply orb_false_iff in Hs as [He Hs].
  destruct (negb (snd e =? id')); [cbn [existsb]; rewrite He |]; auto.
Qed.

Lemma has_tag_remove_other (id id' : Z) (s : ty_descriptor_set) :
  id <> id' -> has_tag id s = true -> has_tag id (ty_descriptor_set_remove s id') = true.
Proof.
  unfold has_tag, ty_descriptor_set_remove. intros Hne Hs.
  apply existsb_exists in Hs as (e & Hin & He).
  apply existsb_exists. exists e. split; [| exact He].
  apply filter_In. split; [exact Hin |].
  apply Z.eqb_eq in He. apply negb_true_iff, Z.eqb_neq. congruence.
Qed.

Lemma has_tag_nonempty (id : Z) (s : ty_descriptor_set) : has_tag id s = true -> s <> [].
Proof. destruct s; [discriminate | discriminate]. Qed.

(** ** Runs *)

Module RunFacts.

Import Tyc Run.

Section Runs.

Context {R : Type}.
Implicit Types t u : itree sessionE R.

Lemma exec_inv t tr t' :
  exec t tr t' ->
  (tr = [] /\ t' = t)
  \/ (exists u, observe t = TauF u /\ exec u tr t')
  \/ (exists A (e : sessionE A) k a tr0,
        observe t = VisF e k /\ tr = Ev e a :: tr0 /\ exec (k a) tr0 t').
Proof.
  destruct 1 as [t | t u tr t' Ht Hu | t A e k a tr t' Ht Hk].
  - left. split; reflexivity.
  - right. left. exists u. split; assumption.
  - right. right. exists A, e, k, a, tr. repeat split; assumption.
Qed.

Lemma exec_trans t tr1 u tr2 t' : exec t tr1 u -> exec u tr2 t' -> exec t (tr1 ++ tr2) t'.
Proof.
  induction 1 as [t | t v tr t0 Ht _ IH | t A e k a tr t0 Ht _ IH]; intros Hu.
  - exact Hu.
  - eapply exec_tau; [exact Ht | exact (IH Hu)].
  - cbn [app]. eapply exec_vis; [exact Ht | exact (IH Hu)].
Qed.

Lemma finishes_ret t r : observe t = RetF r -> finishes t [] r.
Proof. intros Ht. exists t. split; [apply exec_done | exact Ht]. Qed.

Lemma finishes_tau t u tr r : observe t = TauF u -> finishes u tr r -> finishes t tr r.
Proof.
  intros Ht (t' & Hu & Hr). exists t'. split; [| exact Hr].
  eapply exec_tau; eassumption.
Qed.

Lemma finishes_vis t A (e : sessionE A) k a tr r :
  observe t = VisF e k -> finishes (k a) tr r -> finishes t (Ev e a :: tr) r.
Proof.
  intros Ht (t' & Hu & Hr). exists t'. split; [| exact Hr].
  eapply exec_vis; eassumption.
Qed.

Lemma finishes_observe t1 t2 tr r :
  observe t1 = observe t2 -> finishes t2 tr r -> finishes t1 tr r.
Proof.
  intros Ho (t' & He & Hr).
  destruct He as [t | t u tr t' Ht Hu | t A e k a tr t' Ht Hk].
  - apply finishes_ret. congruence.
  - eapply finishes_tau; [| exists t'; split; eassumption]. congruence.
  - eapply finishes_vis; [| exists t'; split; eassumption]. congruence.
Qed.

(** The head of a trace, looked at through an oracle. *)
Lemma cons_eq_agrees (o : answers) (ev ev' : event) (tr tr' : list event) :
  ev :: tr = ev' :: tr' -> agrees o ev' -> agrees o ev /\ tr = tr'.
Proof.
  intros Heq Hag. split.
  - change (agrees o (hd ev' (ev :: tr))). rewrite Heq. exact Hag.
  - change (tl (ev :: tr) = tr'). rewrite Heq. reflexivity.
Qed.

Lemma oracle_for_agrees A (e : sessionE A) (a : A) : agrees (oracle_for e a) (Ev e a).
Proof. destruct e; try reflexivity. destruct a. reflexivity. Qed.

(** A run is determined by the answers: the first call of a tree, answered
    as the trace says, leads where the tree's own continuation leads. *)
Lemma exec_vis_inv t A (e : sessionE A) k a tr t' :
  observe t = VisF e k -> exec t (Ev e a :: tr) t' -> exec (k a) tr t'.
Proof.
  intros Ht Hx.
  apply exec_inv in Hx as [[Hnil _] | [(u & Hu & _) | (B & e' & k' & a' & tr0 & Hv & Htr & Hk)]].
  - discriminate.
  - congruence.
  - pose proof (oracle_for_agrees A e a) as Hag.
    destruct (cons_eq_agrees (oracle_for e a) _ _ _ _ (eq_sym Htr) Hag) as [Hag' <-].
    cbn [agrees] in Hag, Hag'.
    assert (Hres : resume (oracle_for e a) (VisF e k) = resume (oracle_for e a) (VisF e' k'))
      by congruence.
    cbn [resume] in Hres. injection Hres as Hres.
    rewrite Hag, Hres, <- Hag'. exact Hk.
Qed.

Lemma exec_tau_inv t u ev tr t' :
  observe t = TauF u -> exec t (ev :: tr) t' -> exec u (ev :: tr) t'.
Proof.
  intros Ht Hx.
  apply exec_inv in Hx as [[Hnil _] | [(u' & Hu & Hx) | (B & e' & k' & a' & tr0 & Hv & _)]].
  - discriminate.
  - congruence.
  - congruence.
Qed.

Lemma exec_ret_inv t r tr t' : observe t = RetF r -> exec t tr t' -> tr = [] /\ t' = t.
Proof.
  intros Ht Hx.
  apply exec_inv in Hx as [Hnil | [(u' & Hu & _) | (B & e' & k' & a' & tr0 & Hv & _)]].
  - exact Hnil.
  - congruence.
  - congruence.
Qed.


(** A run that finishes, read off the head of the tree. *)
Lemma finishes_inv t tr r :
  finishes t tr r ->
  match observe t with
  | RetF x => tr = [] /\ r = x
  | TauF u => finishes u tr r
  | VisF e k => exists a tr', tr = Ev e a :: tr' /\ finishes (k a) tr' r
  end.
Proof.
  intros (t' & Hx & Hr).
  destruct Hx as [t | t u tr t' Ht Hu | t A e k a tr t' Ht Hk].
  - rewrite Hr. split; [reflexivity |]. reflexivity.
  - rewrite Ht. exists t'. split; assumption.
  - rewrite Ht. exists a, tr. split; [reflexivity |]. exists t'. split; assumption.
Qed.

(** Two runs of one tree on the same answers go the same way. *)
Lemma exec_det t tr t1 :
  exec t tr t1 ->
  forall tr' t2, exec t (tr ++ tr') t2 -> exec t1 tr' t2 \/ (tr' = [] /\ exec t2 [] t1).
Proof.
  induction 1 as [t | t u tr t1 Ht Hu IH | t A e k a tr t1 Ht Hk IH]; intros tr' t2 Hx.
  - left. exact Hx.
  - destruct (tr ++ tr') as [| ev rest] eqn:Happ.
    + apply app_eq_nil in Happ as [-> ->].
      apply exec_inv in Hx as [[_ ->] | [(u' & Hu' & Hx) | (B & e' & k' & a' & tr0 & _ & Hn & _)]].
      * right. split; [reflexivity |]. eapply exec_tau; eassumption.
      * assert (u' = u) as -> by congruence.
        apply (IH [] t2). exact Hx.
      * discriminate.
    + apply (exec_tau_inv _ _ _ _ _ Ht) in Hx. rewrite <- Happ in Hx. apply IH. exact Hx.
  - cbn [app] in Hx. apply (exec_vis_inv _ _ _ _ _ _ _ Ht) in Hx. apply IH. exact Hx.
Qed.

(** Once a run has finished, no call follows. *)
Lemma finishes_last t tr r tr' t' : finishes t tr r -> exec t (tr ++ tr') t' -> tr' = [].
Proof.
  intros (t1 & Hx & Hr) Hx'.
  destruct (exec_det _ _ _ Hx _ _ Hx') as [Hrest | [Hnil _]]; [| exact Hnil].
  apply (exec_ret_inv _ _ _ _ Hr) in Hrest. apply Hrest.
Qed.

End Runs.

End RunFacts.

(** ** The session loop, pass by pass *)

Module LoopFacts.

Import Tyc Run RunFacts.

Section Bind.

Context {R S : Type}.

(** A run of [t] to its result, then one silent step of the continuation. *)
Lemma exec_bind_tau (t0 : itree sessionE S) (t : itree sessionE R) (k : R -> itree sessionE S)
      tr r u :
  observe t0 = observe (ITree.bind t k) ->
  finishes t tr r -> observe (k r) = TauF u -> exec t0 tr u.
Proof.
  intros H0 (t' & Hx & Hr) Hk. revert t0 H0.
  induction Hx as [t | t v tr t' Ht _ IH | t A e h a tr t' Ht _ IH]; intros t0 H0;
    rewrite observe_bind in H0.
  - rewrite Hr in H0. eapply exec_tau; [rewrite H0; exact Hk | apply exec_done].
  - rewrite Ht in H0. eapply exec_tau; [exact H0 | apply IH; [exact Hr | reflexivity]].
  - rewrite Ht in H0. eapply exec_vis; [exact H0 | apply IH; [exact Hr | reflexivity]].
Qed.

Lemma finishes_bind_ret (t0 : itree sessionE S) (t : itree sessionE R) (k : R -> itree sessionE S)
      tr r s :
  observe t0 = observe (ITree.bind t k) ->
  finishes t tr r -> observe (k r) = RetF s -> finishes t0 tr s.
Proof.
  intros H0 (t' & Hx & Hr) Hk. revert t0 H0.
  induction Hx as [t | t v tr t' Ht _ IH | t A e h a tr t' Ht _ IH]; intros t0 H0;
    rewrite observe_bind in H0.
  - rewrite Hr in H0. apply finishes_ret. rewrite H0. exact Hk.
  - rewrite Ht in H0. eapply finishes_tau; [exact H0 | apply IH; [exact Hr | reflexivity]].
  - rewrite Ht in H0. eapply finishes_vis; [exact H0 | apply IH; [exact Hr | reflexivity]].
Qed.

Lemma finishes_bind_ret_l (a : R) (k : R -> itree sessionE S) tr s :
  finishes (k a) tr s -> finishes (ITree.bind (Ret a) k) tr s.
Proof. apply finishes_observe. reflexivity. Qed.

Lemma finishes_bind_bind_ret_l {T : Type} (a : T) (k1 : T -> itree sessionE R)
      (k2 : R -> itree sessionE S) tr s :
  finishes (ITree.bind (k1 a) k2) tr s ->
  finishes (ITree.bind (ITree.bind (Ret a) k1) k2) tr s.
Proof. apply finishes_observe. reflexivity. Qed.

(** A tree that starts with a call finishes only through an answer to
    it. *)
Lemma finishes_call_inv {A : Type} (e : sessionE A) (k : A -> itree sessionE S) tr s :
  finishes (ITree.bind (ITree.trigger e) k) tr s ->
  exists a tr', tr = Ev e a :: tr' /\ finishes (k a) tr' s.
Proof.
  intros Hf. apply finishes_inv in Hf. rewrite observe_bind in Hf. cbn in Hf.
  destruct Hf as (a & tr' & -> & Hf). exists a, tr'. split; [reflexivity |].
  eapply finishes_observe; [| exact Hf]. reflexivity.
Qed.

Lemma finishes_ret_inv (x : S) tr s : finishes (Ret x) tr s -> tr = [] /\ s = x.
Proof. intros Hf. apply finishes_inv in Hf. exact Hf. Qed.

End Bind.

(** One call of the trace answered, and the tree brought back to the shape
    of the source text. *)
Ltac answer :=
  eapply finishes_vis; [cbn; reflexivity | cbn; apply finishes_bind_ret_l; cbn].

Ltac returns := apply finishes_ret; reflexivity.

(** Follows a finished run [Hf] of a pass down every branch of its text and
    closes the branches whose result is not the one [Hf] has. *)
Ltac elsewhere Hf :=
  cbn beta iota zeta in Hf;
  lazymatch type of Hf with
  | finishes (if ?c then _ else _) _ _ => destruct c; elsewhere Hf
  | finishes (let (_, _) := ?x in _) _ _ => destruct x; elsewhere Hf
  | finishes (ITree.bind (ITree.trigger _) _) _ _ =>
      let a := fresh "a" in
      let tr := fresh "tr" in
      let E := fresh "E" in
      apply finishes_call_inv in Hf as (a & tr & E & Hf); elsewhere Hf
  | finishes (Tyc.break _ _ _) _ _ => unfold Tyc.break in Hf; elsewhere Hf
  | finishes (Ret _) _ _ =>
      apply finishes_ret_inv in Hf; destruct Hf as [_ Hf]; discriminate
  end.

Section Passes.

Context (H : ty_h) (g : globals) (outfd : Z).

Lemma loop_returns at_ tr r :
  finishes (loop_step H g outfd at_) tr (inr r) -> finishes (loop_from H g outfd at_) tr r.
Proof.
  intros Hf. eapply (finishes_bind_ret _ _ (after_step H g outfd)); [| exact Hf |]; reflexivity.
Qed.

Lemma loop_goes_on at_ tr at' :
  finishes (loop_step H g outfd at_) tr (inl at') -> exec (loop_from H g outfd at_) tr (loop_from H g outfd at').
Proof.
  intros Hf. eapply (exec_bind_tau _ _ (after_step H g outfd)); [| exact Hf |]; reflexivity.
Qed.

(** [case 0:] *)
Lemma pass_timeout l :
  set l <> [] -> finishes (while_body H g outfd l) [Ev (TyPoll (set l) (timeout l)) 0] (inr 0).
Proof.
  intros Hne. unfold Tyc.while_body. rewrite (count_nonempty _ Hne).
  answer. returns.
Qed.

(** [case 1:] with the capability gone *)
Lemma pass_lost_no_reconnect l r :
  set l <> [] -> 0 <= r -> reconnect g = false ->
  finishes (while_body H g outfd l) (seen_lost l r) (inr 0).
Proof.
  intros Hne Hr Hrc. unfold Tyc.while_body. rewrite (count_nonempty _ Hne).
  assert (Hlt : (r <? 0) = false) by (apply Z.ltb_ge; lia).
  answer. unfold case_1. answer. rewrite Hlt. answer. rewrite Hrc. returns.
Qed.

Lemma pass_lost_wait_fails l r w :
  set l <> [] -> 0 <= r -> reconnect g = true -> w < 0 ->
  finishes (while_body H g outfd l) (seen_lost l r ++ waited w) (inr (to_int w)).
Proof.
  intros Hne Hr Hrc Hw. unfold Tyc.while_body. rewrite (count_nonempty _ Hne).
  assert (Hlt : (r <? 0) = false) by (apply Z.ltb_ge; lia).
  assert (Hlw : (w <? 0) = true) by (apply Z.ltb_lt; lia).
  answer. unfold case_1. answer. rewrite Hlt. answer. rewrite Hrc. cbn.
  answer. answer. rewrite Hlw. returns.
Qed.

Lemma pass_lost_restarts l r w :
  set l <> [] -> 0 <= r -> reconnect g = true -> 0 <= w ->
  finishes (while_body H g outfd l) (seen_lost l r ++ waited w) (inl (Restart (buf l))).
Proof.
  intros Hne Hr Hrc Hw. unfold Tyc.while_body. rewrite (count_nonempty _ Hne).
  assert (Hlt : (r <? 0) = false) by (apply Z.ltb_ge; lia).
  assert (Hlw : (w <? 0) = false) by (apply Z.ltb_ge; lia).
  answer. unfold case_1. answer. rewrite Hlt. answer. rewrite Hrc. cbn.
  answer. answer. rewrite Hlw. returns.
Qed.

(** A pass over a set that is not empty starts with the poll. *)
Lemma loop_polls l p :
  set l <> [] ->
  exists t', exec (loop_from H g outfd (While l)) [Ev (TyPoll (set l) (timeout l)) p] t'.
Proof.
  intros Hne. eexists. eapply exec_vis; [| apply exec_done].
  change (observe (loop_from H g outfd (While l)))
    with (observe (ITree.bind (while_body H g outfd l) (after_step H g outfd))).
  rewrite observe_bind. unfold Tyc.while_body. rewrite (count_nonempty _ Hne).
  cbn. reflexivity.
Qed.

(** From [restart:] to the head of the [while] *)
Lemma pass_restart b a md bd :
  0 <= a ->
  finishes (restart_block g b) (restarted g a md bd)
           (inl (While {| set := filled g md bd; timeout := -1; buf := b |})).
Proof.
  intros Ha. unfold Tyc.restart_block, fill_descriptor_set, restarted, filled.
  assert (Hlt : (a <? 0) = false) by (apply Z.ltb_ge; lia).
  answer. rewrite Hlt.
  eapply finishes_vis; [cbn; reflexivity |]. cbn [app].
  apply finishes_bind_bind_ret_l. cbn.
  destruct (negb (Z.land (directions g) DIRECTION_INPUT =? 0)).
  - eapply finishes_vis; [cbn; reflexivity |]. cbn [app].
    eapply finishes_observe with (t2 := ITree.bind _ _); [reflexivity |].
    destruct (negb (Z.land (directions g) DIRECTION_OUTPUT =? 0)); answer; returns.
  - cbn [app].
    destruct (negb (Z.land (directions g) DIRECTION_OUTPUT =? 0)); answer; returns.
Qed.

(** [case 2:] with a failed read *)
Lemma pass_read_error l r data :
  set l <> [] -> r < 0 -> (r =? TY_ERROR_IO H) && reconnect g = false ->
  finishes (while_body H g outfd l) (read_failed l r data) (inr (to_int r)).
Proof.
  intros Hne Hr Hc. unfold Tyc.while_body. rewrite (count_nonempty _ Hne).
  assert (Hlt : (r <? 0) = true) by (apply Z.ltb_lt; lia).
  answer. unfold case_2. answer. rewrite Hlt, Hc. returns.
Qed.

Lemma pass_read_error_backoff l data :
  set l <> [] -> TY_ERROR_IO H < 0 -> reconnect g = true ->
  finishes (while_body H g outfd l) (read_failed l (TY_ERROR_IO H) data)
           (inl (While (backoff l (store data (buf l))))).
Proof.
  intros Hne Hr Hrc. unfold Tyc.while_body. rewrite (count_nonempty _ Hne).
  assert (Hlt : (TY_ERROR_IO H <? 0) = true) by (apply Z.ltb_lt; lia).
  answer. unfold case_2. answer. rewrite Hlt, Z.eqb_refl, Hrc. returns.
Qed.


(** [case 3:] with zero bytes read *)
Lemma pass_eof_grace l data errno :
  set l <> [] -> 0 <= timeout_eof g ->
  finishes (while_body H g outfd l) (eof_seen l data errno)
           (inl (While (draining g l (store data (buf l))))).
Proof.
  intros Hne Ht. unfold Tyc.while_body. rewrite (count_nonempty _ Hne).
  assert (Hge : (timeout_eof g >=? 0) = true) by (rewrite Z.geb_leb; apply Z.leb_le; lia).
  answer. unfold case_3. answer. rewrite Hge. returns.
Qed.


(** The test at the head of the [while]. *)
Lemma pass_empty l : set l = [] -> finishes (while_body H g outfd l) [] (inr 0).
Proof. intros He. unfold Tyc.while_body. rewrite He. returns. Qed.

(** The one [goto restart] of the source: a pass ends at [restart:] only
    through [case 1:], with the capability gone, under [--reconnect], after
    [tyb_board_wait_for] has answered 0 or more. *)
Lemma pass_to_restart l tr b :
  finishes (while_body H g outfd l) tr (inl (Restart b)) ->
  reconnect g = true /\ b = buf l
  /\ exists r w, 0 <= r /\ 0 <= w /\ tr = seen_lost l r ++ waited w.
Proof.
  unfold Tyc.while_body. intros Hf.
  destruct (count (set l) =? 0); [elsewhere Hf |].
  apply finishes_call_inv in Hf as (p & tr1 & -> & Hf).
  destruct (p <? 0); [elsewhere Hf |].
  destruct (p =? 0); [elsewhere Hf |].
  destruct (Z.eqb_spec p 1) as [-> | _].
  - unfold Tyc.case_1 in Hf.
    apply finishes_call_inv in Hf as (r & tr2 & -> & Hf).
    destruct (Z.ltb_spec r 0) as [_ | Hr]; [elsewhere Hf |].
    apply finishes_call_inv in Hf as (has & tr3 & -> & Hf).
    destruct has; cbn [negb] in Hf; [elsewhere Hf |].
    destruct (reconnect g); cbn [negb] in Hf; [| elsewhere Hf].
    apply finishes_call_inv in Hf as ([] & tr4 & -> & Hf).
    apply finishes_call_inv in Hf as (w & tr5 & -> & Hf).
    destruct (Z.ltb_spec w 0) as [_ | Hw]; [elsewhere Hf |].
    apply finishes_ret_inv in Hf as [-> Hb]. injection Hb as ->.
    split; [reflexivity |]. split; [reflexivity |].
    exists r, w. split; [exact Hr |]. split; [exact Hw | reflexivity].
  - destruct (p =? 2); [unfold Tyc.case_2 in Hf; elsewhere Hf |].
    destruct (p =? 3); [unfold Tyc.case_3 in Hf; elsewhere Hf |].
    elsewhere Hf.
Qed.

End Passes.

(** *** Passes that never look at the monitor *)

Lemma quietF_mon : monotone1 quietF.
Proof.
  intros t r r' Hq LE. unfold quietF in *.
  destruct (observe t) as [z | u | A e k]; [exact I | apply LE, Hq |].
  destruct Hq as [Hc Hk]. split; [exact Hc |]. intros a Ha. apply LE, Hk, Ha.
Qed.
Lemma quiet_pass_observe P t1 t2 :
  observe t1 = observe t2 -> quiet_pass P t2 -> quiet_pass P t1.
Proof.
  intros Ho Hq. destruct Hq as [t r Ht | t a Ht Ha | t u Ht Hu | t A e k Ht He Hk].
  - eapply qp_return. rewrite Ho. exact Ht.
  - eapply qp_next; [rewrite Ho; exact Ht | exact Ha].
  - eapply qp_tau; [rewrite Ho; exact Ht | exact Hu].
  - eapply qp_vis; [rewrite Ho; exact Ht | exact He | exact Hk].
Qed.

Lemma quiet_pass_bind_ret_l P {A} (a : A) k :
  quiet_pass P (k a) -> quiet_pass P (ITree.bind (Ret a) k).
Proof. apply quiet_pass_observe. reflexivity. Qed.

Ltac asked := eapply qp_vis; [cbn; reflexivity | reflexivity | cbn].
Ltac returned := eapply qp_return; reflexivity.

Section Quiet.

Context (H : ty_h) (g : globals) (outfd : Z).

(** Passes that are quiet towards an invariant make a quiet loop. *)
Lemma quiet_iter (P : label -> Prop) :
  (forall at_, P at_ -> quiet_pass P (loop_step H g outfd at_)) ->
  forall at_, P at_ -> quiet (loop_from H g outfd at_).
Proof.
  intros Hstep. pcofix CIH. intros at_ Hat.
  assert (Hgen : forall t, quiet_pass P t ->
            forall t0, observe t0 = observe (ITree.bind t (after_step H g outfd)) ->
                       paco1 quietF r t0).
  { induction 1 as [t z Ht | t a Ht Ha | t u Ht _ IH | t A e k Ht He _ IH]; intros t0 H0;
      pfold; red; rewrite H0, observe_bind, Ht; cbn.
    - exact I.
    - right. apply CIH. exact Ha.
    - left. apply IH. reflexivity.
    - split; [exact He |]. intros a Hok. left. apply (IH a Hok). reflexivity. }
  apply (Hgen _ (Hstep at_ Hat)). reflexivity.
Qed.

Lemma blind_next (s : ty_descriptor_set) (t : Z) (b : list Byte.byte) :
  has_tag 1 s = false -> quiet_pass blind (break s t b).
Proof.
  intros Hs. eapply qp_next; [reflexivity |].
  eexists. split; [reflexivity | exact Hs].
Qed.

(** With no descriptor under tag 1, [ty_poll] cannot answer 1, so [case 1:]
    is never entered; cases 2 and 3 only ever take descriptors out. *)
Lemma blind_pass at_ : blind at_ -> quiet_pass blind (loop_step H g outfd at_).
Proof.
  intros (l & -> & Hl). cbn [loop_step]. unfold Tyc.while_body.
  destruct (count (set l) =? 0); [returned |].
  asked. intros p Hok. apply quiet_pass_bind_ret_l. cbn beta.
  destruct (p <? 0) eqn:Hneg; [returned |].
  destruct (p =? 0); [returned |].
  destruct (p =? 1) eqn:H1.
  { apply Z.eqb_eq in H1. subst p.
    destruct Hok as [Hok | [[Hok _] | [_ Hok]]]; [lia | lia | congruence]. }
  destruct (p =? 2).
  { unfold case_2. asked. intros [r data] _. apply quiet_pass_bind_ret_l. cbn beta iota.
    destruct (r <? 0).
    - destruct ((r =? TY_ERROR_IO H) && reconnect g); [| returned].
      apply blind_next. apply has_tag_remove, has_tag_remove, Hl.
    - asked. intros [w errno] _. apply quiet_pass_bind_ret_l. cbn beta iota.
      destruct (w <? 0); [destruct (errno =? EIO H); returned |].
      apply blind_next, Hl. }
  destruct (p =? 3).
  { unfold case_3. asked. intros [[r data] errno] _. apply quiet_pass_bind_ret_l. cbn beta iota.
    destruct (r <? 0); [destruct (errno =? EIO H); returned |].
    destruct (r =? 0).
    - destruct (timeout_eof g >=? 0); apply blind_next; [| exact Hl].
      apply has_tag_remove, has_tag_remove, Hl.
    - asked. intros w _. apply quiet_pass_bind_ret_l. cbn beta.
      destruct (w <? 0); [| apply blind_next, Hl].
      destruct ((w =? TY_ERROR_IO H) && reconnect g); [| returned].
      apply blind_next. apply has_tag_remove, has_tag_remove, Hl. }
  apply blind_next, Hl.
Qed.

Lemma blind_quiet l : has_tag 1 (set l) = false -> quiet (loop_from H g outfd (While l)).
Proof.
  intros Hl. apply (quiet_iter blind blind_pass). exists l. split; [reflexivity | exact Hl].
Qed.

End Quiet.

(** A quiet tree shows no monitor call in any of its runs. *)
Lemma quiet_exec t tr t' :
  quiet t -> exec t tr t' -> Forall event_ok tr ->
  Forall (fun ev => monitor_event ev = false) tr.
Proof.
  intros Hq Hx. revert Hq.
  induction Hx as [t | t u tr t' Ht _ IH | t A e k a tr t' Ht _ IH]; intros Hq Hok.
  - constructor.
  - apply (paco1_unfold (gf := quietF) quietF_mon) in Hq. red in Hq. rewrite Ht in Hq. pclearbot. apply IH; assumption.
  - apply (paco1_unfold (gf := quietF) quietF_mon) in Hq. red in Hq. rewrite Ht in Hq. destruct Hq as [He Hk].
    inversion Hok as [| ev tr0 Ha Htr]; subst.
    constructor; [exact He |].
    apply IH; [| exact Htr]. specialize (Hk a Ha). pclearbot. exact Hk.
Qed.

End LoopFacts.

(** ** What the session loop does *)

Module SessionLoop.

Import Tyc Run RunFacts LoopFacts Sample.

(** Steps a hypothesis about a run of a closed tree past its first call or
    silent step. *)
Ltac past Hx :=
  first [ eapply exec_vis_inv in Hx; [| lazy -[store to_int]; reflexivity]
        | eapply exec_tau_inv in Hx; [| lazy -[store to_int]; reflexivity] ].

(** Runs a closed tree along a closed trace. *)
Ltac along :=
  repeat first [ eapply exec_vis; [lazy -[store to_int]; reflexivity |]
               | eapply exec_tau; [lazy -[store to_int]; reflexivity |] ];
  apply exec_done.

(** What [case 1:] does.  When the refresh that follows a ready monitor
    descriptor shows the serial capability gone: without [--reconnect] the
    loop returns 0; with it, the loop prints its message and calls
    [tyb_board_wait_for(board, TYB_BOARD_CAPABILITY_SERIAL, false, -1)], the
    third argument being [false] and the timeout -1.  A negative answer is
    returned; otherwise control is at [restart:], where
    [tyb_board_serial_set_attributes] is called with the configured rate and
    flags and, when that succeeds, the set is filled anew and the [while] is
    entered again with no timeout. *)
Theorem serial_loss_waits_then_restarts (H : ty_h) (g : globals) (outfd : Z)
        (l : locals) (r : Z) :
  set l <> [] -> 0 <= r ->
  (reconnect g = false ->
   finishes (loop_from H g outfd (While l)) (seen_lost l r) 0)
  /\ (reconnect g = true ->
      forall w,
        (w < 0 ->
         finishes (loop_from H g outfd (While l)) (seen_lost l r ++ waited w) (to_int w))
        /\ (0 <= w ->
            exec (loop_from H g outfd (While l)) (seen_lost l r ++ waited w)
                 (loop_from H g outfd (Restart (buf l)))
            /\ forall a md bd,
                 0 <= a ->
                 exec (loop_from H g outfd (While l))
                      ((seen_lost l r ++ waited w) ++ restarted g a md bd)
                      (loop_from H g outfd
                         (While {| set := filled g md bd; timeout := -1; buf := buf l |})))).
Proof.
  intros Hne Hr. split.
  - intros Hrc. apply loop_returns. apply pass_lost_no_reconnect; assumption.
  - intros Hrc w. split.
    + intros Hw. apply loop_returns. apply pass_lost_wait_fails; assumption.
    + intros Hw.
      assert (Hgo : exec (loop_from H g outfd (While l)) (seen_lost l r ++ waited w)
                         (loop_from H g outfd (Restart (buf l))))
        by (apply loop_goes_on; apply pass_lost_restarts; assumption).
      split; [exact Hgo |].
      intros a md bd Ha. eapply exec_trans; [exact Hgo |].
      apply loop_goes_on. apply pass_restart. exact Ha.
Qed.

Lemma serial_loss_waits_then_restarts_witness :
  set ready <> [] /\ 0 <= 0
  /\ exec (loop_from libty with_R 1 (While ready))
          ((seen_lost ready 0 ++ waited 0) ++ restarted with_R 0 [10] [11])
          (loop_from libty with_R 1
             (While {| set := filled with_R [10] [11]; timeout := -1; buf := buf ready |})).
Proof.
  assert (He : set ready <> []) by discriminate.
  assert (H0 : 0 <= 0) by lia.
  split; [exact He |]. split; [exact H0 |].
  exact (proj2 (proj2 (proj2 (serial_loss_waits_then_restarts libty with_R 1 ready 0 He H0)
                             eq_refl 0) H0) 0 [10] [11] H0).
Defined.






(** C3, as the code has it.  When the serial read fails with
    [TY_ERROR_IO]: without [--reconnect] the loop returns that error and the
    failed read is its last call, no run goes on past it; with [--reconnect]
    it does not return the error but goes to its next pass with the
    descriptors under tags 2 and 3 taken out of the set and the timeout at
    [ERROR_IO_TIMEOUT].  That pass polls again when a descriptor is left,
    and returns 0 without another call when none is. *)
Theorem serial_read_io_error (H : ty_h) (g : globals) (outfd : Z)
        (l : locals) (data : list Byte.byte) :
  set l <> [] -> is_int (TY_ERROR_IO H) -> TY_ERROR_IO H < 0 ->
  (reconnect g = false ->
   finishes (loop_from H g outfd (While l)) (read_failed l (TY_ERROR_IO H) data)
            (TY_ERROR_IO H)
   /\ forall tr t',
        exec (loop_from H g outfd (While l)) (read_failed l (TY_ERROR_IO H) data ++ tr) t' ->
        tr = [])
  /\ (reconnect g = true ->
      exec (loop_from H g outfd (While l)) (read_failed l (TY_ERROR_IO H) data)
           (loop_from H g outfd (While (backoff l (store data (buf l)))))
      /\ set (backoff l (store data (buf l)))
         = ty_descriptor_set_remove (ty_descriptor_set_remove (set l) 2) 3
      /\ timeout (backoff l (store data (buf l))) = ERROR_IO_TIMEOUT
      /\ (set (backoff l (store data (buf l))) <> [] ->
          forall p, exists t',
            exec (loop_from H g outfd (While l))
                 (read_failed l (TY_ERROR_IO H) data
                    ++ [Ev (TyPoll (set (backoff l (store data (buf l)))) ERROR_IO_TIMEOUT) p])
                 t')
      /\ (set (backoff l (store data (buf l))) = [] ->
          finishes (loop_from H g outfd (While l)) (read_failed l (TY_ERROR_IO H) data) 0)).
Proof.
  intros Hne Hint Hneg. split.
  - intros Hrc.
    assert (Hend : finishes (loop_from H g outfd (While l))
                            (read_failed l (TY_ERROR_IO H) data) (TY_ERROR_IO H)).
    { rewrite <- (to_int_id _ Hint) at 2.
      apply loop_returns. apply pass_read_error; [assumption | assumption |].
      rewrite Hrc. apply andb_false_r. }
    split; [exact Hend |].
    intros tr t'. apply (finishes_last _ _ _ _ _ Hend).
  - intros Hrc.
    assert (Hgo : exec (loop_from H g outfd (While l)) (read_failed l (TY_ERROR_IO H) data)
                       (loop_from H g outfd (While (backoff l (store data (buf l))))))
      by (apply loop_goes_on; apply pass_read_error_backoff; assumption).
    split; [exact Hgo |]. split; [reflexivity |]. split; [reflexivity |]. split.
    + intros H1 p.
      destruct (loop_polls H g outfd (backoff l (store data (buf l))) p H1) as [t' Ht'].
      exists t'. eapply exec_trans; [exact Hgo | exact Ht'].
    + intros H0.
      destruct (loop_returns H g outfd (While (backoff l (store data (buf l)))) [] 0
                  (pass_empty H g outfd _ H0)) as (t' & Ht' & Hr).
      exists t'. split; [| exact Hr].
      rewrite <- (app_nil_r (read_failed l (TY_ERROR_IO H) data)).
      eapply exec_trans; [exact Hgo | exact Ht'].
Qed.

Lemma serial_read_io_error_witness :
  set ready <> [] /\ is_int (TY_ERROR_IO libty) /\ TY_ERROR_IO libty < 0
  /\ finishes (loop_from libty initial_globals 1 (While ready))
              (read_failed ready (TY_ERROR_IO libty) []) (TY_ERROR_IO libty).
Proof.
  assert (Hi : is_int (TY_ERROR_IO libty)) by (unfold is_int; cbn; lia).
  assert (Hn : TY_ERROR_IO libty < 0) by (cbn; lia).
  assert (He : set ready <> []) by discriminate.
  split; [exact He |]. split; [exact Hi |]. split; [exact Hn |].
  exact (proj1 (proj1 (serial_read_io_error libty initial_globals 1 ready [] He Hi Hn)
                      eq_refl)).
Defined.

(** C3 as stated fails: under [--reconnect], a serial read that fails with
    [TY_ERROR_IO] after end of input finds the set without the monitor's
    descriptor; with tags 2 and 3 removed the set is empty, and the session
    ends with 0 right after the failed read. *)
Lemma io_error_after_eof_returns :
  reconnect with_R = true
  /\ Forall event_ok eof_then_io_error
  /\ finishes (loop libty with_R 1 []) eof_then_io_error 0.
Proof.
  split; [reflexivity |]. split.
  - unfold eof_then_io_error.
    repeat (constructor;
            [first [exact I | right; right; split; [lia | reflexivity]] |]).
    constructor.
  - eexists. split; [unfold eof_then_io_error; along | reflexivity].
Qed.

(** C4, as the code has it.  When [ty_poll] answers 0 the loop returns 0,
    whatever the timeout was set to: that of [--timeout-eof] or
    [ERROR_IO_TIMEOUT].  And a pass of the [while] hands over to [restart:]
    in one way only: through [case 1:], with the capability gone, under
    [--reconnect], after [tyb_board_wait_for] has answered 0 or more. *)
Theorem poll_timeout_ends_session (H : ty_h) (g : globals) (outfd : Z) (l : locals) :
  set l <> [] ->
  finishes (loop_from H g outfd (While l)) [Ev (TyPoll (set l) (timeout l)) 0] 0
  /\ forall tr b,
       finishes (loop_step H g outfd (While l)) tr (inl (Restart b)) ->
       reconnect g = true /\ b = buf l
       /\ exists r w, 0 <= r /\ 0 <= w /\ tr = seen_lost l r ++ waited w.
Proof.
  intros Hne. split.
  - apply loop_returns. apply pass_timeout. exact Hne.
  - intros tr b. apply pass_to_restart.
Qed.

Lemma poll_timeout_ends_session_witness :
  set (backoff ready []) <> []
  /\ finishes (loop_from libty with_R 1 (While (backoff ready [])))
              [Ev (TyPoll (set (backoff ready [])) (timeout (backoff ready []))) 0] 0.
Proof.
  assert (He : set (backoff ready []) <> []) by (vm_compute; discriminate).
  split; [exact He |].
  exact (proj1 (poll_timeout_ends_session libty with_R 1 (backoff ready []) He)).
Defined.

(** C4 as stated fails: a session under [--reconnect] whose serial read
    fails with [TY_ERROR_IO] and whose next poll then times out after
    [ERROR_IO_TIMEOUT] returns 0; nothing of [restart:] follows. *)
Lemma backoff_timeout_does_not_restart :
  finishes (loop libty with_R 1 []) io_error_then_timeout 0
  /\ ~ exists a t',
         exec (loop libty with_R 1 [])
              (io_error_then_timeout ++ [Ev (SerialSetAttributes 115200 0) a]) t'.
Proof.
  split.
  - eexists. split; [unfold io_error_then_timeout; along | reflexivity].
  - intros (a & t' & Hx). unfold io_error_then_timeout in Hx. cbn [app] in Hx.
    do 9 past Hx.
    apply exec_ret_inv with (r := 0) in Hx; [| reflexivity].
    destruct Hx as [Hx _]. discriminate.
Qed.

(** C10.  After a zero-byte read of standard input with a grace period of 0
    or more, the set holds no descriptor under tag 1, and from then on, for
    as long as the session runs and whatever [--reconnect] is, the loop
    makes none of the calls of [case 1:] or [restart:]: no refresh of the
    monitor, no capability test, no [tyb_board_wait_for] and no new
    [tyb_board_serial_set_attributes]. *)
Theorem eof_blinds_monitor (H : ty_h) (g : globals) (outfd : Z)
        (l : locals) (data : list Byte.byte) (errno : Z) :
  set l <> [] -> 0 <= timeout_eof g ->
  exec (loop_from H g outfd (While l)) (eof_seen l data errno)
       (loop_from H g outfd (While (draining g l (store data (buf l)))))
  /\ has_tag 1 (set (draining g l (store data (buf l)))) = false
  /\ forall tr t',
       exec (loop_from H g outfd (While (draining g l (store data (buf l))))) tr t' ->
       Forall event_ok tr ->
       Forall (fun ev => monitor_event ev = false) tr.
Proof.
  intros Hne Ht.
  assert (Hblind : has_tag 1 (set (draining g l (store data (buf l)))) = false).
  { cbn [draining set]. apply has_tag_remove, has_tag_remove_same. }
  repeat split.
  - apply loop_goes_on. apply pass_eof_grace; assumption.
  - exact Hblind.
  - intros tr t'. apply quiet_exec. apply blind_quiet. exact Hblind.
Qed.

Lemma eof_blinds_monitor_witness :
  set ready <> [] /\ 0 <= timeout_eof with_R
  /\ Forall event_ok after_eof
  /\ Forall (fun ev => monitor_event ev = false) after_eof.
Proof.
  assert (He : set ready <> []) by discriminate.
  assert (Ht : 0 <= timeout_eof with_R) by (cbn; lia).
  assert (Hok : Forall event_ok after_eof).
  { unfold after_eof.
    constructor; [right; right; split; [lia | reflexivity] |].
    constructor; [exact I |]. constructor; [exact I |].
    constructor; [right; left; split; [reflexivity | lia] | constructor]. }
  split; [exact He |]. split; [exact Ht |]. split; [exact Hok |].
  refine (proj2 (proj2 (eof_blinds_monitor libty with_R 1 ready [] 0 He Ht))
                after_eof _ _ Hok).
  unfold after_eof. along.
Defined.

End SessionLoop.

(** ** What the option switch does *)

Module Options.

Import Tyc Sample.

Lemma land_lnot_mask (x m : Z) : Z.land (Z.land x (Z.lnot m)) m = 0.
Proof.
  rewrite <- Z.land_assoc, (Z.land_comm (Z.lnot m) m), Z.land_lnot_diag.
  apply Z.land_0_r.
Qed.

(** The one value [case 'f':] refuses is the documented ["none"]. *)
Lemma flow_refuses_exactly_none (H : ty_h) (optarg : string) (g : globals) :
  (exists r, case_f H optarg g = Return r) <-> optarg = "none".
Proof.
  unfold case_f, strcmp0. split.
  - intros [r Hr].
    destruct (String.eqb optarg "x" || String.eqb optarg "xonxoff"); [discriminate |].
    destruct (String.eqb optarg "h" || String.eqb optarg "rtscts"); [discriminate |].
    destruct (String.eqb_spec optarg "none") as [-> | Hne]; [reflexivity |].
    rewrite andb_false_r in Hr. discriminate.
  - intros ->. eexists. reflexivity.
Qed.

(** C5.  The code does the opposite of the claim on both counts: [--flow
    none] makes [monitor()] return [ty_error(TY_ERROR_PARAM, ...)], and a
    value outside the documented ones, here ["bogus"], is accepted with the
    flow bits cleared. *)
Theorem flow_none_is_refused (H : ty_h) (g : globals) :
  monitor_option H 102 "none" g
  = Return (ty_error H (TY_ERROR_PARAM H)
                     "--flow must be one off x (xonxoff), h (rtscts) or n (none)")
  /\ monitor_option H 102 "bogus" g
     = Next (with_device_flags g
               (Z.land (device_flags g) (Z.lnot (TYD_SERIAL_FLOW_MASK H)))).
Proof. split; reflexivity. Qed.

(** C6.  For each of the arguments 5, 6, 7 and 8 the [-d] case does not
    break: its result is that of the [-f] case run on the same argument with
    the character size already set, which accepts the argument and leaves
    the flow-control bits of the flags cleared. *)
Theorem databits_runs_on_into_flow (H : ty_h) (g : globals) (optarg : string) :
  In optarg ["5"; "6"; "7"; "8"] ->
  let g_d := with_device_flags g (databits_flags H optarg (device_flags g)) in
  monitor_option H 100 optarg g = monitor_option H 102 optarg g_d
  /\ monitor_option H 100 optarg g
     = Next (with_device_flags g
               (Z.land (device_flags g_d) (Z.lnot (TYD_SERIAL_FLOW_MASK H))))
  /\ forall g', monitor_option H 100 optarg g = Next g' ->
                Z.land (device_flags g') (TYD_SERIAL_FLOW_MASK H) = 0.
Proof.
  intros Hin g_d.
  assert (Hrun : monitor_option H 100 optarg g
                 = Next (with_device_flags g
                           (Z.land (device_flags g_d) (Z.lnot (TYD_SERIAL_FLOW_MASK H))))).
  { subst g_d. cbn in Hin.
    destruct Hin as [<- | [<- | [<- | [<- | []]]]]; reflexivity. }
  split; [| split].
  - rewrite Hrun. subst g_d. cbn in Hin.
    destruct Hin as [<- | [<- | [<- | [<- | []]]]]; reflexivity.
  - exact Hrun.
  - intros g' Hg'. rewrite Hrun in Hg'. injection Hg' as <-.
    cbn [with_device_flags device_flags]. apply land_lnot_mask.
Qed.

Lemma databits_runs_on_into_flow_witness :
  In "7" ["5"; "6"; "7"; "8"]
  /\ monitor_option libty 100 "7" initial_globals
     = monitor_option libty 102 "7"
         (with_device_flags initial_globals
            (databits_flags libty "7" (device_flags initial_globals))).
Proof.
  assert (Hin : In "7" ["5"; "6"; "7"; "8"]) by (right; right; left; reflexivity).
  split; [exact Hin |].
  exact (proj1 (databits_runs_on_into_flow libty initial_globals "7" Hin)).
Defined.

End Options.

(** ** What the Qt monitor does with its boards *)

Module BoardCollection.

Import TyQt Sample.

Lemma stop_stopped (m : Monitor) : started_ m = false -> stop m = (m, []).
Proof. intros Hs. unfold stop. rewrite Hs. reflexivity. Qed.

Lemma start_started (be : backend) (m : Monitor) :
  started_ m = true -> start be m = (true, m, []).
Proof. intros Hs. unfold start. rewrite Hs. reflexivity. Qed.

Lemma stop_drains (m : Monitor) :
  started_ m = true ->
  boards_ (fst (stop m)) = [] /\ started_ (fst (stop m)) = false
  /\ boardCount (fst (stop m)) = 0%N.
Proof.
  intros Hs. unfold stop, boardCount. rewrite Hs. cbn [negb].
  destruct (boards_ m) as [| b v]; cbn; repeat split.
Qed.

(** What [stop()] tells the views when it has boards to drop: one
    [beginRemoveRows] whose last row is the number of boards. *)
Lemma stop_removal (m : Monitor) (b : Board) (v : list Board) :
  started_ m = true -> boards_ m = b :: v ->
  snd (stop m)
  = [serial_thread_quit; serial_thread_wait;
     beginRemoveRows 0 (to_int (size (b :: v))); endRemoveRows;
     setEnabled false; ty_monitor_stop].
Proof.
  intros Hs Hb. unfold stop. rewrite Hs, Hb. reflexivity.
Qed.

Lemma rows_length (first last : Z) :
  first <= last -> Z.of_nat (List.length (rows first last)) = last - first + 1.
Proof.
  intros Hle. unfold rows. rewrite length_map, length_seq. lia.
Qed.

(** C7.  A monitor that was started and then saw one board added holds that
    one board.  [stop()] on it empties the collection and clears the started
    flag, but the removal it announces is [beginRemoveRows(QModelIndex(), 0,
    1)]: rows 0 and 1, one more than the single row there was. *)
Theorem stop_announces_a_row_too_many :
  start answers_ok idle
  = (true, running,
     [ty_monitor_new 0; ty_monitor_register_callback 0; ty_monitor_get_descriptors;
      setDescriptorSet; connect_activated; serial_thread_start; ty_monitor_start 0;
      setEnabled true])
  /\ fst (handleAddedEvent running dev_a) = one_board
  /\ boardCount one_board = 1%N
  /\ stop one_board
     = ({| started_ := false; monitor_ := Some 1; boards_ := [] |},
        [serial_thread_quit; serial_thread_wait; beginRemoveRows 0 1; endRemoveRows;
         setEnabled false; ty_monitor_stop])
  /\ rows 0 1 = [0; 1].
Proof. repeat split. Qed.

Lemma erase_before (v : list Board) (it j : nat) :
  (j < it)%nat -> nth_error (erase v it) j = nth_error v j.
Proof.
  intros Hj. unfold erase.
  destruct (Nat.lt_ge_cases j (List.length v)) as [Hlt | Hge].
  - rewrite nth_error_app1 by (rewrite length_firstn; lia).
    rewrite nth_error_firstn, (proj2 (Nat.ltb_lt j it) Hj). reflexivity.
  - rewrite (proj2 (nth_error_None v j)) by lia.
    apply nth_error_None. rewrite length_app, length_firstn, length_skipn. lia.
Qed.

Lemma erase_after (v : list Board) (it j : nat) :
  (it < List.length v)%nat -> (it <= j)%nat ->
  nth_error (erase v it) j = nth_error v (S j).
Proof.
  intros Hit Hj. unfold erase.
  rewrite nth_error_app2 by (rewrite length_firstn; lia).
  rewrite length_firstn, nth_error_skipn.
  f_equal. lia.
Qed.

Lemma find_if_le (p : Board -> bool) (v : list Board) : (find_if p v <= List.length v)%nat.
Proof. induction v as [| b v IH]; cbn; [lia |]. destruct (p b); lia. Qed.

(** [handleChangedEvent] looks a board up before it touches it, so the
    erase it may lead to is always at a valid iterator. *)
Lemma handleChangedEvent_defined (m : Monitor) (board : ty_board) (s : board_signal) :
  exists m' log, handleChangedEvent m board s = Value (m', log).
Proof.
  unfold handleChangedEvent.
  pose proof (find_if_le (fun ptr => address (board_ ptr) =? address board) (boards_ m))
    as Hle. fold (findBoardIterator m board) in Hle.
  destruct (Nat.eqb_spec (findBoardIterator m board) (List.length (boards_ m))) as [He | Hn].
  - exists m, []. reflexivity.
  - assert (Hlt : (findBoardIterator m board < List.length (boards_ m))%nat) by lia.
    unfold at_.
    destruct (nth_error (boards_ m) (findBoardIterator m board)) as [ptr |] eqn:Hptr;
      [| apply nth_error_None in Hptr; lia].
    destruct s; cbn [on_signal]; try (eexists; eexists; reflexivity).
    unfold removeBoardItem. rewrite (proj2 (Nat.ltb_lt _ _) Hlt).
    eexists. eexists. reflexivity.
Qed.

Lemma handleEvent_defined (m : Monitor) (board : ty_board) (event : ty_monitor_event) :
  exists m' log, handleEvent m board event = Value (m', log).
Proof.
  destruct event; cbn [handleEvent];
    [eexists; eexists; reflexivity | apply handleChangedEvent_defined ..].
Qed.

(** C8, as the code has it.  Every event is handled without undefined
    behaviour.  An added board goes to the end of the collection and leaves
    the others where they were.  Any other event either leaves the collection
    as it is or erases one board: those before it keep their position, and
    each one after it moves down by one. *)
Theorem positions_move_down_on_removal (m : Monitor) (board : ty_board)
        (event : ty_monitor_event) :
  exists m' log,
    handleEvent m board event = Value (m', log)
    /\ (event = TY_MONITOR_EVENT_ADDED -> boards_ m' = boards_ m ++ [make_Board board])
    /\ (event <> TY_MONITOR_EVENT_ADDED ->
        boards_ m' = boards_ m
        \/ exists it,
             (it < List.length (boards_ m))%nat
             /\ boards_ m' = erase (boards_ m) it
             /\ (forall j, (j < it)%nat ->
                           nth_error (boards_ m') j = nth_error (boards_ m) j)
             /\ (forall j, (it <= j)%nat ->
                           nth_error (boards_ m') j = nth_error (boards_ m) (S j))).
Proof.
  assert (Hchanged : forall s,
    exists m' log,
      handleChangedEvent m board s = Value (m', log)
      /\ (boards_ m' = boards_ m
          \/ exists it,
               (it < List.length (boards_ m))%nat
               /\ boards_ m' = erase (boards_ m) it
               /\ (forall j, (j < it)%nat ->
                             nth_error (boards_ m') j = nth_error (boards_ m) j)
               /\ (forall j, (it <= j)%nat ->
                             nth_error (boards_ m') j = nth_error (boards_ m) (S j)))).
  { intros s. unfold handleChangedEvent.
    pose proof (find_if_le (fun ptr => address (board_ ptr) =? address board) (boards_ m))
      as Hle. fold (findBoardIterator m board) in Hle.
    destruct (Nat.eqb_spec (findBoardIterator m board) (List.length (boards_ m))) as [He | Hn].
    - exists m, []. split; [reflexivity | left; reflexivity].
    - assert (Hlt : (findBoardIterator m board < List.length (boards_ m))%nat) by lia.
      unfold at_.
      destruct (nth_error (boards_ m) (findBoardIterator m board)) as [ptr |] eqn:Hptr;
        [| apply nth_error_None in Hptr; lia].
      destruct s; cbn [on_signal];
        try (eexists; eexists; split; [reflexivity | left; reflexivity]).
      unfold removeBoardItem. rewrite (proj2 (Nat.ltb_lt _ _) Hlt).
      eexists. eexists. split; [reflexivity |]. right.
      exists (findBoardIterator m board). cbn [with_boards boards_].
      split; [exact Hlt |]. split; [reflexivity |]. split.
      + intros j Hj. apply erase_before. exact Hj.
      + intros j Hj. apply erase_after; assumption. }
  destruct event; cbn [handleEvent].
  - eexists. eexists. split; [reflexivity |]. split; [reflexivity | congruence].
  - destruct (Hchanged statusChanged) as (m' & log & Hv & Hb).
    exists m', log. split; [exact Hv |]. split; [discriminate | intros _; exact Hb].
  - destruct (Hchanged statusChanged) as (m' & log & Hv & Hb).
    exists m', log. split; [exact Hv |]. split; [discriminate | intros _; exact Hb].
  - destruct (Hchanged dropped) as (m' & log & Hv & Hb).
    exists m', log. split; [exact Hv |]. split; [discriminate | intros _; exact Hb].
Qed.

(** C8 as stated fails: with boards a and b added in that order, the drop of
    a takes b from position 1 to position 0, though b itself stays. *)
Lemma drop_moves_the_later_board :
  handleEvents running
               [(dev_a, TY_MONITOR_EVENT_ADDED); (dev_b, TY_MONITOR_EVENT_ADDED)]
  = Value (two_boards,
           [loadSettings (make_Board dev_a); setThreadPool (make_Board dev_a);
            moveToThread (make_Board dev_a); connect_signals (make_Board dev_a);
            beginInsertRows 0 0; endInsertRows; boardAdded (make_Board dev_a);
            loadSettings (make_Board dev_b); setThreadPool (make_Board dev_b);
            moveToThread (make_Board dev_b); connect_signals (make_Board dev_b);
            beginInsertRows 1 1; endInsertRows; boardAdded (make_Board dev_b)])
  /\ nth_error (boards_ two_boards) 1 = Some (make_Board dev_b)
  /\ handleEvent two_boards dev_a TY_MONITOR_EVENT_DROPPED
     = Value ({| started_ := true; monitor_ := Some 1; boards_ := [make_Board dev_b] |},
              [refreshBoard (make_Board dev_a); beginRemoveRows 0 0; endRemoveRows])
  /\ nth_error [make_Board dev_b] 1 <> Some (make_Board dev_b)
  /\ nth_error [make_Board dev_b] 0 = Some (make_Board dev_b).
Proof.
  split; [reflexivity |]. split; [reflexivity |]. split; [reflexivity |].
  split; [discriminate | reflexivity].
Qed.

(** No sequence of events runs into undefined behaviour. *)
Lemma handleEvents_defined (events : list (ty_board * ty_monitor_event)) :
  forall m, exists m' log, handleEvents m events = Value (m', log).
Proof.
  induction events as [| [board event] rest IH]; intros m; cbn [handleEvents].
  - exists m, []. reflexivity.
  - destruct (handleEvent_defined m board event) as (m1 & log1 & ->).
    destruct (IH m1) as (m2 & log2 & ->).
    exists m2, (log1 ++ log2). reflexivity.
Qed.

Lemma board_past_size (m : Monitor) (i : N) :
  (N.of_nat (List.length (boards_ m)) <= i)%N -> board m i = Value None.
Proof. intros Hi. unfold board. rewrite (proj2 (N.leb_le _ _) Hi). reflexivity. Qed.

Lemma board_within_size (m : Monitor) (i : N) :
  (i < N.of_nat (List.length (boards_ m)))%N ->
  exists b, nth_error (boards_ m) (N.to_nat i) = Some b /\ board m i = Value (Some b).
Proof.
  intros Hi. unfold board, at_. rewrite (proj2 (N.leb_gt _ _) Hi).
  destruct (nth_error (boards_ m) (N.to_nat i)) as [b |] eqn:Hb.
  - exists b. split; reflexivity.
  - apply nth_error_None in Hb. lia.
Qed.

(** C9.  For a collection whose size fits the [unsigned int] that
    [boardCount()] returns, [board(i)] is [nullptr] for every [i] from
    [boardCount()] on, and for every [i] below it is the board stored at
    position [i]; the unchecked [boards_[i]] is never reached out of
    bounds. *)
Theorem board_is_total (m : Monitor) (i : N) :
  (N.of_nat (List.length (boards_ m)) < 2 ^ 32)%N ->
  ((boardCount m <= i)%N -> board m i = Value None)
  /\ ((i < boardCount m)%N ->
      exists b, nth_error (boards_ m) (N.to_nat i) = Some b /\ board m i = Value (Some b)).
Proof.
  intros Hfit. unfold boardCount. rewrite N.mod_small by exact Hfit.
  split; [apply board_past_size | apply board_within_size].
Qed.

Lemma board_is_total_witness :
  (N.of_nat (List.length (boards_ two_boards)) < 2 ^ 32)%N
  /\ board two_boards 2 = Value None.
Proof.
  assert (Hfit : (N.of_nat (List.length (boards_ two_boards)) < 2 ^ 32)%N) by reflexivity.
  split; [exact Hfit |].
  apply (proj1 (board_is_total two_boards 2 Hfit)). discriminate.
Defined.

End BoardCollection.

(** ** More on the option switch *)

Module OptionRules.

Import Tyc Sample.


Lemma eqb_outside (x y : string) (l : list string) :
  ~ In x l -> In y l -> String.eqb x y = false.
Proof.
  intros Hx Hy. destruct (String.eqb_spec x y) as [-> | Hne]; [contradiction | reflexivity].
Qed.

(** X1.  [--parity], [--direction] and [--databits] take exactly the
    spellings their usage text lists: each of those is accepted, and every
    other argument makes [monitor()] return [ty_error(TY_ERROR_PARAM, ...)]
    with the message of that option. *)
Theorem documented_values_accepted_others_refused (H : ty_h) (g : globals) (optarg : string) :
  (In optarg parity_values -> exists g', monitor_option H 112 optarg g = Next g')
  /\ (~ In optarg parity_values ->
      monitor_option H 112 optarg g
      = Return (ty_error H (TY_ERROR_PARAM H)
                         "--parity must be one off o (odd), e (even) or n (none)"))
  /\ (In optarg direction_values -> exists g', monitor_option H 68 optarg g = Next g')
  /\ (~ In optarg direction_values ->
      monitor_option H 68 optarg g
      = Return (ty_error H (TY_ERROR_PARAM H)
                         "--direction must be one off input, output or both"))
  /\ (In optarg databits_values -> exists g', monitor_option H 100 optarg g = Next g')
  /\ (~ In optarg databits_values ->
      monitor_option H 100 optarg g
      = Return (ty_error H (TY_ERROR_PARAM H) "--databits must be one off 5, 6, 7 or 8")).
Proof.
  repeat split.
  - intros Hin. cbn in Hin.
    destruct Hin as [<- | [<- | [<- | [<- | [<- | [<- | []]]]]]]; eexists; reflexivity.
  - intros Hout. cbn [monitor_option Z.eqb Pos.eqb]. unfold case_p, strcmp0.
    rewrite !(eqb_outside optarg _ parity_values Hout) by (cbn; tauto).
    reflexivity.
  - intros Hin. cbn in Hin.
    destruct Hin as [<- | [<- | [<- | []]]]; eexists; reflexivity.
  - intros Hout. cbn [monitor_option Z.eqb Pos.eqb]. unfold case_D, strcmp0.
    rewrite !(eqb_outside optarg _ direction_values Hout) by (cbn; tauto).
    reflexivity.
  - intros Hin. cbn in Hin.
    destruct Hin as [<- | [<- | [<- | [<- | []]]]]; eexists; reflexivity.
  - intros Hout. cbn [monitor_option Z.eqb Pos.eqb]. unfold case_d, strcmp0.
    rewrite !(eqb_outside optarg _ databits_values Hout) by (cbn; tauto).
    reflexivity.
Qed.







Lemma mask_then_set (f m a : Z) :
  Z.land a (Z.lnot m) = 0 ->
  Z.land (Z.lor (Z.land f (Z.lnot m)) a) (Z.lnot m) = Z.land f (Z.lnot m).
Proof.
  intros Ha. rewrite Z.land_lor_distr_l, Ha, Z.lor_0_r, <- Z.land_assoc, Z.land_diag.
  reflexivity.
Qed.

Lemma case_p_flags (H : ty_h) (optarg : string) (g g' : globals) :
  case_p H optarg g = Next g' ->
  exists bits,
    (bits = TYD_SERIAL_ODD_PARITY H \/ bits = TYD_SERIAL_EVEN_PARITY H \/ bits = 0)
    /\ (forall g0, case_p H optarg g0
                   = Next (with_device_flags g0
                             (Z.lor (Z.land (device_flags g0)
                                            (Z.lnot (TYD_SERIAL_PARITY_MASK H))) bits))).
Proof.
  unfold case_p.
  destruct (strcmp0 optarg "o" || strcmp0 optarg "odd").
  { intros _. exists (TYD_SERIAL_ODD_PARITY H). split; [tauto | reflexivity]. }
  destruct (strcmp0 optarg "e" || strcmp0 optarg "even").
  { intros _. exists (TYD_SERIAL_EVEN_PARITY H). split; [tauto | reflexivity]. }
  destruct (negb (strcmp0 optarg "n") && negb (strcmp0 optarg "none")); [discriminate |].
  intros _. exists 0. split; [tauto |]. intros g0. rewrite Z.lor_0_r. reflexivity.
Qed.

(** X3.  When the two parity values of the header lie within the parity
    mask, a [--parity] option changes no flag outside that mask, and of two
    [--parity] options the later one decides: the result is that of the
    later one given alone. *)
Theorem parity_last_one_wins (H : ty_h) (g g1 g2 : globals) (a b : string) :
  Z.land (TYD_SERIAL_ODD_PARITY H) (Z.lnot (TYD_SERIAL_PARITY_MASK H)) = 0 ->
  Z.land (TYD_SERIAL_EVEN_PARITY H) (Z.lnot (TYD_SERIAL_PARITY_MASK H)) = 0 ->
  monitor_option H 112 a g = Next g1 ->
  monitor_option H 112 b g1 = Next g2 ->
  monitor_options H [(112, a); (112, b)] g = monitor_option H 112 b g
  /\ Z.land (device_flags g2) (Z.lnot (TYD_SERIAL_PARITY_MASK H))
     = Z.land (device_flags g) (Z.lnot (TYD_SERIAL_PARITY_MASK H)).
Proof.
  intros Hodd Heven Ha Hb.
  change (monitor_option H 112 a g) with (case_p H a g) in *.
  change (monitor_option H 112 b g1) with (case_p H b g1) in *.
  change (monitor_option H 112 b g) with (case_p H b g).
  destruct (case_p_flags H a g g1 Ha) as (x & Hx & Hxa).
  destruct (case_p_flags H b g1 g2 Hb) as (y & Hy & Hyb).
  assert (Hin : forall v, v = TYD_SERIAL_ODD_PARITY H \/ v = TYD_SERIAL_EVEN_PARITY H \/ v = 0 ->
                          Z.land v (Z.lnot (TYD_SERIAL_PARITY_MASK H)) = 0).
  { intros v [-> | [-> | ->]]; [exact Hodd | exact Heven | apply Z.land_0_l]. }
  rewrite Hxa in Ha. injection Ha as <-.
  rewrite Hyb in Hb. injection Hb as <-.
  cbn [with_device_flags device_flags].
  split.
  - cbn [monitor_options].
    change (monitor_option H 112 a g) with (case_p H a g).
    rewrite Hxa.
    change (monitor_option H 112 b) with (case_p H b).
    rewrite !Hyb. cbn [with_device_flags device_flags terminal_flags device_rate directions
                         reconnect timeout_eof].
    rewrite (mask_then_set _ _ _ (Hin x Hx)). reflexivity.
  - rewrite (mask_then_set _ _ _ (Hin y Hy)), (mask_then_set _ _ _ (Hin x Hx)). reflexivity.
Qed.

Lemma parity_last_one_wins_witness :
  Z.land (TYD_SERIAL_ODD_PARITY libty) (Z.lnot (TYD_SERIAL_PARITY_MASK libty)) = 0
  /\ Z.land (TYD_SERIAL_EVEN_PARITY libty) (Z.lnot (TYD_SERIAL_PARITY_MASK libty)) = 0
  /\ monitor_options libty [(112, "odd"); (112, "e")] initial_globals
     = monitor_option libty 112 "e" initial_globals.
Proof.
  split; [reflexivity |]. split; [reflexivity |].
  exact (proj1 (parity_last_one_wins libty initial_globals _ _ "odd" "e"
                  eq_refl eq_refl eq_refl eq_refl)).
Defined.

End OptionRules.


(** ** More on the session loop *)
Module SessionRules.

Import Tyc Run RunFacts LoopFacts Sample.

Section Specs.

Context (ok : forall A, sessionE A -> A -> Prop) (bad : forall A, sessionE A -> bool).

Lemma pass_spec_observe Q t1 t2 :
  observe t1 = observe t2 -> pass_spec ok bad Q t2 -> pass_spec ok bad Q t1.
Proof.
  intros Ho Hq. destruct Hq as [t r Ht Hr | t u Ht Hu | t A e k Ht He Hk].
  - eapply ps_ret; [rewrite Ho; exact Ht | exact Hr].
  - eapply ps_tau; [rewrite Ho; exact Ht | exact Hu].
  - eapply ps_vis; [rewrite Ho; exact Ht | exact He | exact Hk].
Qed.

Lemma pass_spec_bind_ret_l Q {A} (a : A) k :
  pass_spec ok bad Q (k a) -> pass_spec ok bad Q (ITree.bind (Ret a) k).
Proof. apply pass_spec_observe. reflexivity. Qed.

(** What a pass promises holds of each of its runs. *)
Lemma pass_spec_exec Q t tr t' :
  exec t tr t' -> pass_spec ok bad Q t -> Forall (ok_event ok) tr ->
  pass_spec ok bad Q t' /\ Forall (fun ev => bad_event bad ev = false) tr.
Proof.
  induction 1 as [t | t u tr t' Ht _ IH | t A e k a tr t' Ht _ IH]; intros Hq Hok.
  - split; [exact Hq | constructor].
  - apply IH; [| exact Hok].
    destruct Hq as [t r Hr _ | t v Hv Hq | t B e' k' Hv _ _]; congruence.
  - inversion Hok as [| ev tr0 Ha Htr]; subst.
    assert (Hstep : bad _ e = false /\ forall a0, ok _ e a0 -> pass_spec ok bad Q (k a0)).
    { destruct Hq as [t r Hr _ | t v Hv _ | t B e' k' Hv He Hk];
        [congruence | congruence |].
      assert (Hat : match observe t with
                    | VisF c h => bad _ c = false
                                  /\ forall a0, ok _ c a0 -> pass_spec ok bad Q (h a0)
                    | _ => True
                    end) by (rewrite Hv; split; assumption).
      rewrite Ht in Hat. exact Hat. }
    destruct Hstep as [He Hk].
    destruct (IH (Hk a Ha) Htr) as [Hq' Hrest].
    split; [exact Hq' | constructor; [exact He | exact Hrest]].
Qed.

Lemma pass_spec_finishes Q t tr r :
  pass_spec ok bad Q t -> finishes t tr r -> Forall (ok_event ok) tr ->
  Q r /\ Forall (fun ev => bad_event bad ev = false) tr.
Proof.
  intros Hq (t' & Hx & Hr) Hok.
  destruct (pass_spec_exec Q t tr t' Hx Hq Hok) as [Hq' Hcalls].
  split; [| exact Hcalls].
  destruct Hq' as [t0 r' Hr' HQ | t0 v Hv _ | t0 B e' k' Hv _ _]; congruence.
Qed.

Lemma neverF_mon : monotone1 (neverF ok bad).
Proof.
  intros t r r' Hq LE. unfold neverF in *.
  destruct (observe t) as [z | u | A e k]; [exact I | apply LE, Hq |].
  destruct Hq as [Hc Hk]. split; [exact Hc |]. intros a Ha. apply LE, Hk, Ha.
Qed.

Lemma never_exec t tr t' :
  never ok bad t -> exec t tr t' -> Forall (ok_event ok) tr ->
  Forall (fun ev => bad_event bad ev = false) tr.
Proof.
  intros Hq Hx. revert Hq.
  induction Hx as [t | t u tr t' Ht _ IH | t A e k a tr t' Ht _ IH]; intros Hq Hok.
  - constructor.
  - apply (paco1_unfold (gf := neverF ok bad) neverF_mon) in Hq. red in Hq.
    rewrite Ht in Hq. pclearbot. apply IH; assumption.
  - apply (paco1_unfold (gf := neverF ok bad) neverF_mon) in Hq. red in Hq.
    rewrite Ht in Hq. destruct Hq as [He Hk].
    inversion Hok as [| ev tr0 Ha Htr]; subst.
    constructor; [exact He |].
    apply IH; [| exact Htr]. specialize (Hk a Ha). pclearbot. exact Hk.
Qed.

Context (H : ty_h) (g : globals) (outfd : Z).

Lemma never_iter (P : label -> Prop) :
  (forall at_, P at_ -> pass_spec ok bad (goes_to P) (loop_step H g outfd at_)) ->
  forall at_, P at_ -> never ok bad (loop_from H g outfd at_).
Proof.
  intros Hstep. pcofix CIH. intros at_ Hat.
  assert (Hgen : forall t, pass_spec ok bad (goes_to P) t ->
            forall t0, observe t0 = observe (ITree.bind t (after_step H g outfd)) ->
                       paco1 (neverF ok bad) r t0).
  { induction 1 as [t lr Ht HQ | t u Ht _ IH | t A e k Ht He _ IH]; intros t0 H0;
      pfold; red; rewrite H0, observe_bind, Ht; cbn.
    - destruct lr as [at' | z]; cbn; [| exact I].
      right. apply CIH. exact HQ.
    - left. apply IH. reflexivity.
    - split; [exact He |]. intros a Hok. left. apply (IH a Hok). reflexivity. }
  apply (Hgen _ (Hstep at_ Hat)). reflexivity.
Qed.

(** What the block at [restart:] needs for a [pass_spec]. *)
Lemma restart_spec Q b :
  bad _ (SerialSetAttributes (device_rate g) (device_flags g)) = false ->
  bad _ MonitorGetDescriptors = false ->
  bad _ (BoardGetDescriptors TYB_BOARD_CAPABILITY_SERIAL) = false ->
  bad _ (Printf (String.append "Connection ready" nl)) = false ->
  (forall r, Q (inr r)) ->
  (forall md bd, Q (inl (While {| set := filled g md bd; timeout := -1; buf := b |}))) ->
  pass_spec ok bad Q (restart_block g b).
Proof.
  intros Hb1 Hb2 Hb3 Hb4 Hret Hnext.
  unfold Tyc.restart_block, fill_descriptor_set.
  eapply ps_vis; [cbn; reflexivity | exact Hb1 |]. intros a _.
  apply pass_spec_bind_ret_l. cbn beta.
  destruct (a <? 0); [eapply ps_ret; [reflexivity | apply Hret] |].
  eapply ps_vis; [cbn; reflexivity | exact Hb2 |]. intros md _.
  eapply pass_spec_observe with (t2 := ITree.bind _ _); [reflexivity |]. cbn beta zeta.
  specialize (Hnext md). unfold filled in Hnext.
  destruct (negb (Z.land (directions g) DIRECTION_INPUT =? 0)).
  - eapply ps_vis; [cbn; reflexivity | exact Hb3 |]. intros bd _.
    eapply pass_spec_observe with (t2 := ITree.bind _ _); [reflexivity |].
    specialize (Hnext bd).
    destruct (negb (Z.land (directions g) DIRECTION_OUTPUT =? 0));
      (eapply ps_vis; [cbn; reflexivity | exact Hb4 |]); intros [] _;
      apply pass_spec_bind_ret_l; (eapply ps_ret; [reflexivity | exact Hnext]).
  - specialize (Hnext []).
    destruct (negb (Z.land (directions g) DIRECTION_OUTPUT =? 0));
      (eapply ps_vis; [cbn; reflexivity | exact Hb4 |]); intros [] _;
      apply pass_spec_bind_ret_l; (eapply ps_ret; [reflexivity | exact Hnext]).
Qed.

End Specs.

(** Walks through every branch of a pass: an [if] is split, a call is
    answered by an arbitrary value, and what is left are the conditions on the
    calls and on the ends of the pass.  [prune] closes the branches that the
    hypotheses rule out. *)
Ltac explore prune :=
  cbn beta iota zeta;
  lazymatch goal with
  | |- pass_spec _ _ _ (Tyc.case_1 _ _) => unfold Tyc.case_1; explore prune
  | |- pass_spec _ _ _ (Tyc.case_2 _ _ _ _) => unfold Tyc.case_2; explore prune
  | |- pass_spec _ _ _ (Tyc.case_3 _ _ _) => unfold Tyc.case_3; explore prune
  | |- pass_spec _ _ _ (if ?c then _ else _) =>
      destruct c eqn:?; try (exfalso; prune); explore prune
  | |- pass_spec _ _ _ (let (_, _) := ?x in _) => destruct x; explore prune
  | |- pass_spec _ _ _ (ITree.bind (ITree.trigger _) _) =>
      eapply ps_vis;
      [cbn; reflexivity
      | try reflexivity
      | let a := fresh "a" in
        let Ha := fresh "Ha" in
        intros a Ha; apply pass_spec_bind_ret_l; explore prune]
  | |- pass_spec _ _ _ (Ret _) => eapply ps_ret; [reflexivity | cbn [goes_to]]
  | |- pass_spec _ _ _ (break _ _ _) => eapply ps_ret; [reflexivity | cbn [goes_to]]
  | |- _ => idtac
  end.

Lemma all_any_answer (tr : list event) : Forall (ok_event any_answer) tr.
Proof. apply Forall_forall. intros [A e a] _. exact I. Qed.

Lemma incl_remove (s : ty_descriptor_set) (id : Z) : incl (ty_descriptor_set_remove s id) s.
Proof. unfold ty_descriptor_set_remove. apply incl_filter. Qed.

Lemma has_tag_merge_other (id id' : Z) (s : ty_descriptor_set) (ds : list ty_descriptor) :
  id <> id' -> has_tag id (ty_descriptor_set_merge s ds id') = has_tag id s.
Proof.
  intros Hne. unfold has_tag, ty_descriptor_set_merge. rewrite existsb_app.
  replace (existsb (fun e => snd e =? id) (map (fun d => (d, id')) ds)) with false;
    [apply orb_false_r |].
  induction ds as [| d ds IH]; [reflexivity |].
  cbn [map existsb snd]. rewrite <- IH.
  rewrite (proj2 (Z.eqb_neq id' id)) by congruence. reflexivity.
Qed.


Lemma exec_finishes {R : Type} (t u : itree sessionE R) tr1 tr2 r :
  exec t tr1 u -> finishes u tr2 r -> finishes t (tr1 ++ tr2) r.
Proof.
  intros Hx (t' & Hu & Hr). exists t'. split; [| exact Hr].
  eapply exec_trans; eassumption.
Qed.

Section Properties.

Context (H : ty_h) (g : globals) (outfd : Z).

(** *** One pass of the [while] *)

Lemma while_narrows l :
  pass_spec any_answer any_call (narrowed g l) (while_body H g outfd l).
Proof.
  unfold Tyc.while_body. explore fail.
  all: cbn [narrowed set timeout buf]; try exact I; try reflexivity.
  all: try (split; [apply incl_refl | tauto]).
  all: split; [eapply incl_tran; apply incl_remove | tauto].
Qed.

(** X4.  A pass of the [while] never adds to the wait set and never invents
    a timeout: when it hands over to the next pass, the set is included in
    the one it had and the timeout is the one it had, the EOF grace period or
    [ERROR_IO_TIMEOUT]; when it goes to [restart:] the buffer is the one it
    had. *)
Theorem pass_only_narrows_the_set (l : locals) (tr : list event) (lr : label + Z) :
  finishes (while_body H g outfd l) tr lr -> narrowed g l lr.
Proof.
  intros Hf.
  exact (proj1 (pass_spec_finishes _ _ _ _ _ _ (while_narrows l) Hf (all_any_answer tr))).
Qed.

(** *** Errors on the local side *)




(** *** Errors on the serial write *)

Lemma pass_write_error l r data errno w :
  set l <> [] -> 0 < r -> w < 0 -> (w =? TY_ERROR_IO H) && reconnect g = false ->
  finishes (while_body H g outfd l) (forwarded l r data errno w) (inr (to_int w)).
Proof.
  intros Hne Hr Hw Hc. unfold Tyc.while_body. rewrite (count_nonempty _ Hne).
  assert (Hlt : (r <? 0) = false) by (apply Z.ltb_ge; lia).
  assert (Hz : (r =? 0) = false) by (apply Z.eqb_neq; lia).
  assert (Hlw : (w <? 0) = true) by (apply Z.ltb_lt; lia).
  answer. unfold case_3. answer. rewrite Hlt, Hz. answer. rewrite Hlw, Hc. returns.
Qed.

Lemma pass_write_error_backoff l r data errno :
  set l <> [] -> 0 < r -> TY_ERROR_IO H < 0 -> reconnect g = true ->
  finishes (while_body H g outfd l) (forwarded l r data errno (TY_ERROR_IO H))
           (inl (While (backoff l (store data (buf l))))).
Proof.
  intros Hne Hr Hw Hrc. unfold Tyc.while_body. rewrite (count_nonempty _ Hne).
  assert (Hlt : (r <? 0) = false) by (apply Z.ltb_ge; lia).
  assert (Hz : (r =? 0) = false) by (apply Z.eqb_neq; lia).
  assert (Hlw : (TY_ERROR_IO H <? 0) = true) by (apply Z.ltb_lt; lia).
  answer. unfold case_3. answer. rewrite Hlt, Hz. answer.
  rewrite Hlw, Z.eqb_refl, Hrc. returns.
Qed.

(** X6.  A serial write that fails with [TY_ERROR_IO] is handled like a
    failed read: without [--reconnect] the loop returns the error; with it
    the loop goes on with the descriptors under tags 2 and 3 removed and the
    timeout at [ERROR_IO_TIMEOUT]. *)
Theorem serial_write_io_error (l : locals) (r : Z) (data : list Byte.byte) (errno : Z) :
  set l <> [] -> 0 < r -> is_int (TY_ERROR_IO H) -> TY_ERROR_IO H < 0 ->
  (reconnect g = false ->
   finishes (loop_from H g outfd (While l)) (forwarded l r data errno (TY_ERROR_IO H))
            (TY_ERROR_IO H))
  /\ (reconnect g = true ->
      exec (loop_from H g outfd (While l)) (forwarded l r data errno (TY_ERROR_IO H))
           (loop_from H g outfd (While (backoff l (store data (buf l)))))).
Proof.
  intros Hne Hr Hint Hneg. split; intros Hrc.
  - rewrite <- (to_int_id _ Hint) at 2. apply loop_returns.
    apply pass_write_error; [assumption .. |]. rewrite Hrc. apply andb_false_r.
  - apply loop_goes_on. apply pass_write_error_backoff; assumption.
Qed.

(** X7.  [--reconnect] only covers [TY_ERROR_IO]: any other negative result
    of the serial read or of the serial write is returned, cast to [int],
    whatever the reconnect flag is. *)
Theorem other_serial_errors_are_returned (l : locals) (e : Z) :
  set l <> [] -> e < 0 -> e <> TY_ERROR_IO H ->
  (forall data,
      finishes (loop_from H g outfd (While l)) (read_failed l e data) (to_int e))
  /\ (forall r data errno,
         0 < r ->
         finishes (loop_from H g outfd (While l)) (forwarded l r data errno e) (to_int e)).
Proof.
  intros Hne He Hio.
  assert (Hc : (e =? TY_ERROR_IO H) && reconnect g = false)
    by (rewrite (proj2 (Z.eqb_neq _ _) Hio); reflexivity).
  split.
  - intros data. apply loop_returns. apply pass_read_error; assumption.
  - intros r data errno Hr. apply loop_returns. apply pass_write_error; assumption.
Qed.

(** *** An empty set *)

Lemma loop_over_empty_set l : set l = [] -> finishes (loop_from H g outfd (While l)) [] 0.
Proof.
  intros He. apply loop_returns. cbn [loop_step]. unfold Tyc.while_body. rewrite He.
  returns.
Qed.

Lemma remove_all_tags (s : ty_descriptor_set) :
  Forall (fun e => In (snd e) [1; 2; 3]) s ->
  ty_descriptor_set_remove
    (ty_descriptor_set_remove
       (ty_descriptor_set_remove (ty_descriptor_set_remove s 1) 3) 2) 3 = [].
Proof.
  unfold ty_descriptor_set_remove. induction 1 as [| [d id] s Hid _ IH]; [reflexivity |].
  cbn [snd] in Hid. cbn [filter snd].
  destruct Hid as [<- | [<- | [<- | []]]]; cbn; exact IH.
Qed.

(** The set [fill_descriptor_set] builds only has the tags 1, 2 and 3. *)
Lemma filled_tags (md bd : list ty_descriptor) :
  Forall (fun e => In (snd e) [1; 2; 3]) (filled g md bd).
Proof.
  unfold filled, ty_descriptor_set_merge, ty_descriptor_set_add, ty_descriptor_set_clear.
  assert (Hm : forall (ds : list ty_descriptor) id,
             In id [1; 2; 3] ->
             Forall (fun e : ty_descriptor * Z => In (snd e) [1; 2; 3])
                    (map (fun d => (d, id)) ds)).
  { intros ds id Hid. apply Forall_forall. intros e He.
    apply in_map_iff in He as (d & <- & _). exact Hid. }
  destruct (negb (Z.land (directions g) DIRECTION_INPUT =? 0));
    destruct (negb (Z.land (directions g) DIRECTION_OUTPUT =? 0));
    repeat (apply (proj2 (Forall_app _ _ _)); split);
    try (apply Hm; cbn; tauto); try (constructor; [cbn; tauto | constructor]);
    constructor.
Qed.

(** X8.  After end of input, [--reconnect] no longer reconnects.  In a set
    that only has descriptors under the tags 1, 2 and 3, as the one built at
    [restart:] has, a zero-byte read of standard input with a grace period
    followed by a serial read that fails with [TY_ERROR_IO] leaves no
    descriptor at all, and the loop returns 0 at once, without waiting for
    the board. *)
Theorem io_error_after_eof_ends_the_session (l : locals) (data data' : list Byte.byte)
        (errno : Z) :
  reconnect g = true -> 0 <= timeout_eof g -> TY_ERROR_IO H < 0 ->
  has_tag 2 (set l) = true ->
  Forall (fun e => In (snd e) [1; 2; 3]) (set l) ->
  finishes (loop_from H g outfd (While l))
           (eof_seen l data errno
              ++ read_failed (draining g l (store data (buf l))) (TY_ERROR_IO H) data')
           0.
Proof.
  intros Hrc Ht Hneg H2 Htags.
  assert (Hne : set l <> []) by exact (has_tag_nonempty 2 _ H2).
  assert (Hne' : set (draining g l (store data (buf l))) <> []).
  { apply (has_tag_nonempty 2). cbn [draining set].
    apply has_tag_remove_other; [lia |]. apply has_tag_remove_other; [lia | exact H2]. }
  eapply exec_finishes.
  { apply loop_goes_on. apply pass_eof_grace; [exact Hne | exact Ht]. }
  rewrite <- (app_nil_r (read_failed _ _ _)).
  eapply exec_finishes.
  { apply loop_goes_on. apply pass_read_error_backoff; [exact Hne' | exact Hneg | exact Hrc]. }
  apply loop_over_empty_set. cbn [backoff draining set]. apply remove_all_tags. exact Htags.
Qed.

(** *** Calls that are never made *)

Lemma stays_in_while at_ :
  reconnect g = false -> in_while at_ ->
  pass_spec any_answer reconnects (goes_to in_while) (loop_step H g outfd at_).
Proof.
  intros Hrc Hat. destruct at_ as [b | l]; [destruct Hat |]. cbn [loop_step].
  unfold Tyc.while_body. explore ltac:(rewrite Hrc in *; discriminate).
  all: exact I.
Qed.

(** X9.  Without [--reconnect] the loop, once in its [while], never goes
    back to [restart:]: in no run does it wait for the board or set the
    serial attributes and fill the descriptor set again. *)
Theorem without_reconnect_no_restart (l : locals) (tr : list event) (t' : itree sessionE Z) :
  reconnect g = false ->
  exec (loop_from H g outfd (While l)) tr t' ->
  Forall (fun ev => bad_event reconnects ev = false) tr.
Proof.
  intros Hrc Hx.
  refine (never_exec any_answer reconnects _ tr t' _ Hx (all_any_answer tr)).
  apply (never_iter any_answer reconnects H g outfd in_while).
  - intros at_. apply stays_in_while. exact Hrc.
  - exact I.
Qed.

Ltac no_such_tag id :=
  idtac;
  match goal with
  | Hp : (?p =? id) = true, Hok : ok_answer _ (TyPoll _ _) ?p, Hl : has_tag id _ = false |- _ =>
      apply Z.eqb_eq in Hp; subst p; cbv [ok_answer answer_ok poll_ok] in Hok;
      destruct Hok as [Hok | [[Hok _] | [_ Hok]]]; [lia | lia | congruence]
  end.

Lemma input_stays_closed at_ :
  Z.land (directions g) DIRECTION_OUTPUT = 0 -> without_tag 3 at_ ->
  pass_spec ok_answer takes_input (goes_to (without_tag 3)) (loop_step H g outfd at_).
Proof.
  intros Hdir Hat. destruct at_ as [b | l]; cbn [loop_step].
  - apply restart_spec; try reflexivity; try (intros ?; exact I).
    intros md bd. cbn [goes_to without_tag set]. unfold filled. rewrite Hdir. cbn [Z.eqb negb].
    destruct (negb (Z.land (directions g) DIRECTION_INPUT =? 0));
      rewrite ?has_tag_merge_other by lia; reflexivity.
  - cbn [without_tag] in Hat. unfold Tyc.while_body. explore ltac:(no_such_tag 3).
    all: cbn [without_tag set]; try exact I; try exact Hat.
    all: apply has_tag_remove, has_tag_remove, Hat.
Qed.


(** X10.  With [--direction input] (the output bit of [directions] clear)
    standard input is never part of the wait set, so in no run does the loop
    read standard input or write to the board. *)
Theorem input_only_never_takes_input (b : list Byte.byte) (tr : list event)
        (t' : itree sessionE Z) :
  Z.land (directions g) DIRECTION_OUTPUT = 0 ->
  exec (loop H g outfd b) tr t' -> Forall event_ok tr ->
  Forall (fun ev => bad_event takes_input ev = false) tr.
Proof.
  intros Hdir Hx Hok.
  refine (never_exec ok_answer takes_input _ tr t' _ Hx Hok).
  apply (never_iter ok_answer takes_input H g outfd (without_tag 3)).
  - intros at_. apply input_stays_closed. exact Hdir.
  - exact I.
Qed.


Lemma timeouts_stay_known at_ :
  timeout_known g at_ ->
  pass_spec any_answer (polls_otherwise g) (goes_to (timeout_known g))
            (loop_step H g outfd at_).
Proof.
  intros Hat. destruct at_ as [b | l]; cbn [loop_step].
  - apply restart_spec; try reflexivity; intros ?; exact I.
  - cbn [timeout_known] in Hat. unfold Tyc.while_body. explore fail.
    all: cbn [timeout_known timeout polls_otherwise]; try exact I; try exact Hat.
    all: try (rewrite Hat; reflexivity).
    all: unfold known_timeout; rewrite ?Z.eqb_refl, ?orb_true_r; reflexivity.
Qed.

(** X12.  In every run of [loop()], each [ty_poll] is called with a timeout
    of -1, of the EOF grace period, or of [ERROR_IO_TIMEOUT]; no other value
    is ever passed. *)
Theorem poll_timeouts_are_known (b : list Byte.byte) (tr : list event)
        (t' : itree sessionE Z) :
  exec (loop H g outfd b) tr t' ->
  Forall (fun ev => bad_event (polls_otherwise g) ev = false) tr.
Proof.
  intros Hx.
  refine (never_exec any_answer (polls_otherwise g) _ tr t' _ Hx (all_any_answer tr)).
  apply (never_iter any_answer (polls_otherwise g) H g outfd (timeout_known g)).
  - intros at_. apply timeouts_stay_known.
  - exact I.
Qed.

End Properties.

(** *** The rules at work on sample sessions *)

Lemma pass_only_narrows_the_set_witness :
  finishes (while_body libty with_R 1 ready) (read_failed ready (TY_ERROR_IO libty) [])
           (inl (While (backoff ready (store [] (buf ready)))))
  /\ narrowed with_R ready (inl (While (backoff ready (store [] (buf ready))))).
Proof.
  assert (Hf : finishes (while_body libty with_R 1 ready)
                        (read_failed ready (TY_ERROR_IO libty) [])
                        (inl (While (backoff ready (store [] (buf ready))))))
    by (apply pass_read_error_backoff; [discriminate | reflexivity | reflexivity]).
  split; [exact Hf |].
  exact (pass_only_narrows_the_set libty with_R 1 ready _ _ Hf).
Defined.


Lemma serial_write_io_error_witness :
  set ready <> [] /\ 0 < 1 /\ is_int (TY_ERROR_IO libty) /\ TY_ERROR_IO libty < 0
  /\ exec (loop_from libty with_R 1 (While ready))
          (forwarded ready 1 [Byte.x41] 0 (TY_ERROR_IO libty))
          (loop_from libty with_R 1 (While (backoff ready (store [Byte.x41] (buf ready))))).
Proof.
  assert (He : set ready <> []) by discriminate.
  assert (Hr : 0 < 1) by lia.
  assert (Hi : is_int (TY_ERROR_IO libty)) by (unfold is_int; cbn; lia).
  assert (Hn : TY_ERROR_IO libty < 0) by (cbn; lia).
  split; [exact He |]. split; [exact Hr |]. split; [exact Hi |]. split; [exact Hn |].
  exact (proj2 (serial_write_io_error libty with_R 1 ready 1 [Byte.x41] 0 He Hr Hi Hn)
               eq_refl).
Defined.

Lemma other_serial_errors_are_returned_witness :
  set ready <> [] /\ TY_ERROR_PARAM libty < 0 /\ TY_ERROR_PARAM libty <> TY_ERROR_IO libty
  /\ finishes (loop_from libty with_R 1 (While ready))
              (read_failed ready (TY_ERROR_PARAM libty) []) (to_int (TY_ERROR_PARAM libty)).
Proof.
  assert (He : set ready <> []) by discriminate.
  assert (Hn : TY_ERROR_PARAM libty < 0) by (cbn; lia).
  assert (Hd : TY_ERROR_PARAM libty <> TY_ERROR_IO libty) by discriminate.
  split; [exact He |]. split; [exact Hn |]. split; [exact Hd |].
  exact (proj1 (other_serial_errors_are_returned libty with_R 1 ready _ He Hn Hd) []).
Defined.

Lemma io_error_after_eof_ends_the_session_witness :
  reconnect with_R = true /\ 0 <= timeout_eof with_R /\ TY_ERROR_IO libty < 0
  /\ has_tag 2 (set ready) = true
  /\ finishes (loop_from libty with_R 1 (While ready))
              (eof_seen ready [] 0
                 ++ read_failed (draining with_R ready (store [] (buf ready)))
                                (TY_ERROR_IO libty) [])
              0.
Proof.
  assert (Ht : 0 <= timeout_eof with_R) by (cbn; lia).
  assert (Hn : TY_ERROR_IO libty < 0) by (cbn; lia).
  assert (Htags : Forall (fun e => In (snd e) [1; 2; 3]) (set ready)).
  { repeat constructor; cbn; tauto. }
  split; [reflexivity |]. split; [exact Ht |]. split; [exact Hn |]. split; [reflexivity |].
  exact (io_error_after_eof_ends_the_session libty with_R 1 ready [] [] 0
           eq_refl Ht Hn eq_refl Htags).
Defined.

Lemma without_reconnect_no_restart_witness :
  reconnect initial_globals = false
  /\ Forall (fun ev => bad_event reconnects ev = false) (eof_seen ready [] 0).
Proof.
  split; [reflexivity |].
  refine (without_reconnect_no_restart libty initial_globals 1 ready (eof_seen ready [] 0)
            (loop_from libty initial_globals 1
               (While (draining initial_globals ready (store [] (buf ready)))))
            eq_refl _).
  apply loop_goes_on. apply pass_eof_grace; [discriminate | cbn; lia].
Defined.

Lemma input_only_never_takes_input_witness :
  Z.land (directions input_only) DIRECTION_OUTPUT = 0
  /\ Forall event_ok listening
  /\ Forall (fun ev => bad_event takes_input ev = false) listening.
Proof.
  assert (Hok : Forall event_ok listening).
  { unfold listening. repeat (constructor; [first [exact I | right; right; split; [lia | reflexivity]] |]).
    constructor. }
  assert (Hx : exists t', exec (loop libty input_only 1 []) listening t')
    by (eexists; unfold listening; SessionLoop.along).
  split; [reflexivity |]. split; [exact Hok |].
  destruct Hx as [t' Hx].
  exact (input_only_never_takes_input libty input_only 1 [] listening t' eq_refl Hx Hok).
Defined.


Lemma poll_timeouts_are_known_witness :
  (exists t', exec (loop libty with_R 1 []) io_error_then_timeout t')
  /\ Forall (fun ev => bad_event (polls_otherwise with_R) ev = false) io_error_then_timeout.
Proof.
  assert (Hx : exists t', exec (loop libty with_R 1 []) io_error_then_timeout t')
    by (eexists; unfold io_error_then_timeout; SessionLoop.along).
  split; [exact Hx |].
  destruct Hx as [t' Hx].
  exact (poll_timeouts_are_known libty with_R 1 [] io_error_then_timeout t' Hx).
Defined.

End SessionRules.

(** ** More on the board collection *)

Module BoardRules.

Import TyQt Sample.

(** Where [find_if] stops: at [end()] when no board passes, or at the first
    board that does. *)
Lemma find_if_split (p : Board -> bool) (v : list Board) :
  (find_if p v = List.length v /\ Forall (fun b => p b = false) v)
  \/ (exists v1 b v2,
         v = v1 ++ b :: v2 /\ find_if p v = List.length v1 /\ p b = true
         /\ Forall (fun x => p x = false) v1).
Proof.
  induction v as [| a v IH]; [left; split; [reflexivity | constructor] |].
  cbn [find_if]. destruct (p a) eqn:Ha.
  - right. exists [], a, v.
    split; [reflexivity |]. split; [reflexivity |]. split; [exact Ha | constructor].
  - destruct IH as [[He Hall] | (v1 & b & v2 & Hv & He & Hb & Hall)].
    + left. split; [cbn [List.length]; congruence | constructor; assumption].
    + right. exists (a :: v1), b, v2.
      split; [rewrite Hv; reflexivity |].
      split; [cbn [List.length]; congruence |].
      split; [exact Hb | constructor; assumption].
Qed.

Lemma find_if_last (p : Board -> bool) (v : list Board) (x : Board) :
  Forall (fun b => p b = false) v -> p x = true -> find_if p (v ++ [x]) = List.length v.
Proof.
  intros Hall Hx. induction Hall as [| a v Ha _ IH]; cbn [app find_if List.length].
  - rewrite Hx. reflexivity.
  - rewrite Ha, IH. reflexivity.
Qed.

Lemma at_middle (v1 : list Board) (b : Board) (v2 : list Board) :
  at_ (v1 ++ b :: v2) (List.length v1) = Value b.
Proof.
  unfold at_. rewrite nth_error_app2 by lia. rewrite Nat.sub_diag. reflexivity.
Qed.

Lemma erase_middle (v1 : list Board) (b : Board) (v2 : list Board) :
  erase (v1 ++ b :: v2) (List.length v1) = v1 ++ v2.
Proof.
  unfold erase. induction v1 as [| a v1 IH]; [reflexivity |].
  cbn [app List.length firstn skipn]. cbn [skipn] in IH. rewrite IH. reflexivity.
Qed.

Lemma middle_is_inside (v1 : list Board) (b : Board) (v2 : list Board) :
  (List.length v1 =? List.length (v1 ++ b :: v2))%nat = false
  /\ (List.length v1 <? List.length (v1 ++ b :: v2))%nat = true.
Proof.
  rewrite length_app. cbn [List.length].
  split; [apply Nat.eqb_neq | apply Nat.ltb_lt]; lia.
Qed.

Lemma wrapping_app (addr : Z) (v w : list Board) :
  wrapping addr (v ++ w) = wrapping addr v ++ wrapping addr w.
Proof. apply filter_app. Qed.

Lemma wrapping_none (addr : Z) (v : list Board) :
  Forall (fun ptr => (address (board_ ptr) =? addr) = false) v <-> wrapping addr v = [].
Proof.
  unfold wrapping. induction v as [| a v IH]; cbn [filter].
  - split; [reflexivity | constructor].
  - destruct (address (board_ a) =? addr) eqn:Ha.
    + split; [| discriminate]. intros Hall. inversion Hall; congruence.
    + rewrite <- IH. split; [intros Hall; inversion Hall; assumption |].
      intros Hall. constructor; assumption.
Qed.

Lemma make_Board_wraps (board : ty_board) : board_ (make_Board board) = board.
Proof. unfold make_Board. destruct (unique board); reflexivity. Qed.

Lemma rows_one (n : Z) : List.length (rows n n) = 1%nat.
Proof. unfold rows. rewrite length_map, length_seq, Z.sub_diag. reflexivity. Qed.

Lemma announced_app (log log' : list effect) :
  announced (log ++ log') = announced log + announced log'.
Proof.
  induction log as [| e log IH]; [reflexivity |].
  cbn [app]. destruct e; cbn [announced]; lia.
Qed.

(** What [handleChangedEvent] does: nothing for a handle that no board
    wraps; otherwise it refreshes the first board that wraps it and then
    either erases that board and announces its row (the board says it was
    dropped) or announces a change of its row. *)
Lemma handleChangedEvent_cases (m : Monitor) (board : ty_board) (s : board_signal) :
  (wrapping (address board) (boards_ m) = []
   /\ handleChangedEvent m board s = Value (m, []))
  \/ (exists v1 b v2,
         boards_ m = v1 ++ b :: v2
         /\ address (board_ b) = address board
         /\ wrapping (address board) v1 = []
         /\ handleChangedEvent m board s =
            Value (match s with
                   | dropped =>
                       (with_boards m (v1 ++ v2),
                        [refreshBoard b; beginRemoveRows (row_after v1) (row_after v1);
                         endRemoveRows])
                   | _ => (m, [refreshBoard b; dataChanged (row_after v1)])
                   end)).
Proof.
  unfold handleChangedEvent, on_signal, removeBoardItem, refreshBoardItem, findBoardIterator.
  destruct (find_if_split (fun ptr => address (board_ ptr) =? address board) (boards_ m))
    as [[He Hall] | (v1 & b & v2 & Hv & He & Hb & Hall)].
  - left. rewrite He, Nat.eqb_refl. split; [apply wrapping_none; exact Hall | reflexivity].
  - right. exists v1, b, v2.
    split; [exact Hv |]. split; [apply Z.eqb_eq; exact Hb |].
    split; [apply wrapping_none; exact Hall |].
    rewrite He, Hv. destruct (middle_is_inside v1 b v2) as [Hne Hlt].
    rewrite Hne, at_middle, Hlt, erase_middle.
    destruct s; reflexivity.
Qed.

(** X13.  Events about a handle leave every board that wraps another handle
    in the collection, in the same order: after any sequence of events none
    of which is about the handle at [addr], the boards wrapping [addr] are
    the ones there were. *)
Theorem other_handles_are_untouched (addr : Z) (events : list (ty_board * ty_monitor_event)) :
  forall (m m' : Monitor) (log : list effect),
    Forall (fun ev => address (fst ev) <> addr) events ->
    handleEvents m events = Value (m', log) ->
    wrapping addr (boards_ m') = wrapping addr (boards_ m).
Proof.
  induction events as [| [board event] rest IH]; intros m m' log Hall Hrun;
    cbn [handleEvents] in Hrun.
  - injection Hrun as <- _. reflexivity.
  - inversion Hall as [| ev evs Hhere Hrest]; subst. cbn [fst] in Hhere.
    destruct (handleEvent m board event) as [[m1 log1] |] eqn:H1; [| discriminate].
    destruct (handleEvents m1 rest) as [[m2 log2] |] eqn:H2; [| discriminate].
    injection Hrun as <- _.
    rewrite (IH m1 m2 log2 Hrest H2).
    assert (Hskip : forall b, address (board_ b) = address board ->
                              wrapping addr [b] = []).
    { intros b Hb. apply wrapping_none. constructor; [| constructor].
      apply Z.eqb_neq. congruence. }
    destruct event; cbn [handleEvent] in H1.
    + injection H1 as <- _. cbn [handleAddedEvent with_boards boards_].
      rewrite wrapping_app, (Hskip _ (f_equal address (make_Board_wraps board))).
      apply app_nil_r.
    + destruct (handleChangedEvent_cases m board (refreshBoard_emits TY_MONITOR_EVENT_CHANGED))
        as [[_ Hc] | (v1 & b & v2 & Hv & Hb & _ & Hc)];
        rewrite Hc in H1; cbn in H1; injection H1 as <- _; reflexivity.
    + destruct (handleChangedEvent_cases m board
                  (refreshBoard_emits TY_MONITOR_EVENT_DISAPPEARED))
        as [[_ Hc] | (v1 & b & v2 & Hv & Hb & _ & Hc)];
        rewrite Hc in H1; cbn in H1; injection H1 as <- _; reflexivity.
    + destruct (handleChangedEvent_cases m board (refreshBoard_emits TY_MONITOR_EVENT_DROPPED))
        as [[_ Hc] | (v1 & b & v2 & Hv & Hb & _ & Hc)];
        rewrite Hc in H1; cbn [refreshBoard_emits] in H1; injection H1 as <- _;
        [reflexivity |].
      cbn [with_boards boards_]. rewrite Hv.
      change (v1 ++ b :: v2) with (v1 ++ [b] ++ v2).
      rewrite !wrapping_app, (Hskip b Hb). reflexivity.
Qed.

Lemma other_handles_are_untouched_witness :
  Forall (fun ev => address (fst ev) <> address dev_b) plug_and_unplug
  /\ exists m' log,
       handleEvents two_boards plug_and_unplug = Value (m', log)
       /\ wrapping (address dev_b) (boards_ m') = wrapping (address dev_b) (boards_ two_boards).
Proof.
  assert (Hall : Forall (fun ev => address (fst ev) <> address dev_b) plug_and_unplug).
  { constructor; [discriminate |]. constructor; [discriminate | constructor]. }
  split; [exact Hall |].
  eexists. eexists. split; [reflexivity |].
  exact (other_handles_are_untouched (address dev_b) plug_and_unplug two_boards _ _ Hall
           eq_refl).
Defined.

Lemma handleEvent_announced (m : Monitor) (board : ty_board) (event : ty_monitor_event) :
  match handleEvent m board event with
  | Value (m', log) => size (boards_ m') = size (boards_ m) + announced log
  | Undefined => False
  end.
Proof.
  assert (Hchanged : forall s,
             match handleChangedEvent m board s with
             | Value (m', log) => size (boards_ m') = size (boards_ m) + announced log
             | Undefined => False
             end).
  { intros s.
    destruct (handleChangedEvent_cases m board s)
      as [[_ Hc] | (v1 & b & v2 & Hv & _ & _ & Hc)]; rewrite Hc.
    - cbn [announced]. lia.
    - destruct s; cbn [announced boards_ with_boards]; try lia.
      rewrite rows_one, Hv. unfold size. rewrite !length_app. cbn [List.length]. lia. }
  destruct event; cbn [handleEvent]; [| apply Hchanged ..].
  cbn [handleAddedEvent with_boards boards_ announced].
  rewrite rows_one. unfold size. rewrite length_app. cbn [List.length]. lia.
Qed.

(** X14.  While events are handled the views are told exactly what happens
    to the collection: no sequence of events is undefined, and the size of
    the collection afterwards is the size before plus the rows announced as
    inserted minus the rows announced as removed. *)
Theorem notifications_match_the_collection (events : list (ty_board * ty_monitor_event)) :
  forall m : Monitor,
    match handleEvents m events with
    | Value (m', log) => size (boards_ m') = size (boards_ m) + announced log
    | Undefined => False
    end.
Proof.
  induction events as [| [board event] rest IH]; intros m; cbn [handleEvents].
  - cbn [announced]. lia.
  - pose proof (handleEvent_announced m board event) as H1.
    destruct (handleEvent m board event) as [[m1 log1] |]; [| exact H1].
    specialize (IH m1).
    destruct (handleEvents m1 rest) as [[m2 log2] |]; [| exact IH].
    rewrite announced_app. lia.
Qed.

(** X15.  A board that says it was dropped takes one board out of the
    collection, the first that wraps its handle; a handle that was added
    twice is still wrapped by the second board afterwards. *)
Theorem dropped_erases_the_first_wrapper (m m' : Monitor) (board : ty_board)
        (log : list effect) :
  handleChangedEvent m board dropped = Value (m', log) ->
  wrapping (address board) (boards_ m') = tl (wrapping (address board) (boards_ m)).
Proof.
  intros Hrun.
  destruct (handleChangedEvent_cases m board dropped)
    as [[Hnone Hc] | (v1 & b & v2 & Hv & Hb & Hnone & Hc)];
    rewrite Hc in Hrun; injection Hrun as <- _.
  - rewrite Hnone. reflexivity.
  - cbn [with_boards boards_]. rewrite Hv.
    change (v1 ++ b :: v2) with (v1 ++ [b] ++ v2).
    rewrite !wrapping_app, Hnone. cbn [app].
    unfold wrapping at 2. cbn [filter]. rewrite (proj2 (Z.eqb_eq _ _) Hb). reflexivity.
Qed.

Lemma dropped_erases_the_first_wrapper_witness :
  exists m' log,
    handleChangedEvent two_boards dev_a dropped = Value (m', log)
    /\ wrapping (address dev_a) (boards_ m') = [].
Proof.
  eexists. eexists. split; [reflexivity |].
  exact (dropped_erases_the_first_wrapper two_boards _ dev_a _ eq_refl).
Defined.

(** X16.  An event other than ADDED about a handle that no board wraps is
    ignored: the monitor is unchanged and nothing is called, emitted or
    announced. *)
Theorem unknown_handle_is_ignored (m : Monitor) (board : ty_board) (event : ty_monitor_event) :
  wrapping (address board) (boards_ m) = [] -> event <> TY_MONITOR_EVENT_ADDED ->
  handleEvent m board event = Value (m, []).
Proof.
  intros Hnone Hev.
  assert (Hchanged : forall s, handleChangedEvent m board s = Value (m, [])).
  { intros s.
    destruct (handleChangedEvent_cases m board s)
      as [[_ Hc] | (v1 & b & v2 & Hv & Hb & _ & _)]; [exact Hc |].
    exfalso. rewrite Hv in Hnone. change (v1 ++ b :: v2) with (v1 ++ [b] ++ v2) in Hnone.
    rewrite !wrapping_app in Hnone. unfold wrapping at 2 in Hnone. cbn [filter] in Hnone.
    rewrite (proj2 (Z.eqb_eq _ _) Hb) in Hnone.
    destruct (wrapping (address board) v1); discriminate. }
  destruct event; cbn [handleEvent]; [congruence | apply Hchanged ..].
Qed.

Lemma unknown_handle_is_ignored_witness :
  wrapping (address dev_c) (boards_ two_boards) = []
  /\ handleEvent two_boards dev_c TY_MONITOR_EVENT_DROPPED = Value (two_boards, []).
Proof.
  assert (Hnone : wrapping (address dev_c) (boards_ two_boards) = []) by reflexivity.
  split; [exact Hnone |].
  apply (unknown_handle_is_ignored two_boards dev_c TY_MONITOR_EVENT_DROPPED Hnone).
  discriminate.
Defined.

Lemma added_last (m : Monitor) (board : ty_board) :
  wrapping (address board) (boards_ m) = [] ->
  findBoardIterator (fst (handleAddedEvent m board)) board = List.length (boards_ m).
Proof.
  intros Hnone. cbn [handleAddedEvent fst]. unfold findBoardIterator.
  cbn [with_boards boards_]. apply find_if_last.
  - apply wrapping_none. exact Hnone.
  - rewrite make_Board_wraps. apply Z.eqb_refl.
Qed.

(** X17.  A board that was added for a handle no board wrapped is the one
    later events about the handle reach: when it reports a change, it is the
    board that was refreshed, and the row announced as changed is the row
    that was announced as inserted. *)
Theorem added_board_is_found (m : Monitor) (board : ty_board) (s : board_signal) :
  wrapping (address board) (boards_ m) = [] -> s <> dropped ->
  In (beginInsertRows (rowCount m) (rowCount m)) (snd (handleAddedEvent m board))
  /\ handleChangedEvent (fst (handleAddedEvent m board)) board s =
     Value (fst (handleAddedEvent m board),
            [refreshBoard (make_Board board); dataChanged (rowCount m)]).
Proof.
  intros Hnone Hs. split.
  - cbn [handleAddedEvent snd]. unfold rowCount. cbn [In]. tauto.
  - unfold handleChangedEvent, on_signal, refreshBoardItem. rewrite (added_last m board Hnone).
    cbn [handleAddedEvent fst with_boards boards_].
    replace (boards_ m ++ [make_Board board]) with (boards_ m ++ make_Board board :: [])
      by reflexivity.
    destruct (middle_is_inside (boards_ m) (make_Board board) []) as [Hne _].
    rewrite Hne, at_middle. unfold rowCount, size.
    destruct s; try reflexivity. congruence.
Qed.

Lemma added_board_is_found_witness :
  wrapping (address dev_c) (boards_ two_boards) = []
  /\ handleChangedEvent (fst (handleAddedEvent two_boards dev_c)) dev_c statusChanged =
     Value (fst (handleAddedEvent two_boards dev_c),
            [refreshBoard (make_Board dev_c); dataChanged (rowCount two_boards)]).
Proof.
  assert (Hnone : wrapping (address dev_c) (boards_ two_boards) = []) by reflexivity.
  split; [exact Hnone |].
  apply (added_board_is_found two_boards dev_c statusChanged Hnone). discriminate.
Defined.

(** X18.  Adding a board for a handle no board wrapped and then dropping it
    gives back the monitor there was, and the row announced as removed is
    the row that was announced as inserted. *)
Theorem add_then_drop_gives_back_the_monitor (m : Monitor) (board : ty_board) :
  wrapping (address board) (boards_ m) = [] ->
  handleChangedEvent (fst (handleAddedEvent m board)) board dropped =
  Value (m, [refreshBoard (make_Board board);
             beginRemoveRows (rowCount m) (rowCount m); endRemoveRows]).
Proof.
  intros Hnone.
  unfold handleChangedEvent, on_signal, removeBoardItem. rewrite (added_last m board Hnone).
  cbn [handleAddedEvent fst with_boards boards_ started_ monitor_].
  replace (boards_ m ++ [make_Board board]) with (boards_ m ++ make_Board board :: [])
    by reflexivity.
  destruct (middle_is_inside (boards_ m) (make_Board board) []) as [Hne Hlt].
  rewrite Hne, at_middle, Hlt, erase_middle, app_nil_r.
  unfold rowCount, size. destruct m; reflexivity.
Qed.

Lemma add_then_drop_gives_back_the_monitor_witness :
  wrapping (address dev_c) (boards_ two_boards) = []
  /\ handleChangedEvent (fst (handleAddedEvent two_boards dev_c)) dev_c dropped =
     Value (two_boards, [refreshBoard (make_Board dev_c); beginRemoveRows 2 2; endRemoveRows]).
Proof.
  assert (Hnone : wrapping (address dev_c) (boards_ two_boards) = []) by reflexivity.
  split; [exact Hnone |].
  exact (add_then_drop_gives_back_the_monitor two_boards dev_c Hnone).
Defined.

(** X19.  [find(filter)] never reads past the collection.  It gives
    [nullptr] exactly when the filter accepts no board, and otherwise the
    first board the filter accepts. *)
Theorem find_gives_the_first_match (m : Monitor) (filter : Board -> bool) :
  find m filter <> Undefined
  /\ (find m filter = Value None <-> Forall (fun b => filter b = false) (boards_ m))
  /\ (forall b,
         find m filter = Value (Some b) ->
         exists v1 v2,
           boards_ m = v1 ++ b :: v2 /\ filter b = true
           /\ Forall (fun x => filter x = false) v1).
Proof.
  unfold find.
  destruct (find_if_split filter (boards_ m))
    as [[He Hall] | (v1 & b & v2 & Hv & He & Hb & Hall)].
  - rewrite He, Nat.eqb_refl.
    split; [discriminate |]. split; [split; auto | discriminate].
  - rewrite He, Hv. destruct (middle_is_inside v1 b v2) as [Hne _].
    rewrite Hne, at_middle.
    split; [discriminate |]. split.
    + split; [discriminate |]. intros Hno. exfalso.
      apply Forall_app in Hno as [_ Hno]. inversion Hno; congruence.
    + intros b' Hb'. injection Hb' as <-. exists v1, v2.
      split; [reflexivity |]. split; [exact Hb | exact Hall].
Qed.

(** *** [start()] and [stop()] *)

(** X20.  [start()] returns whether the monitor is marked started when it
    returns, and enables the notifier only when it returns true for a
    monitor that was not started. *)
Theorem start_reports_the_started_flag (be : backend) (m : Monitor) :
  fst (fst (start be m)) = started_ (snd (fst (start be m)))
  /\ (In (setEnabled true) (snd (start be m)) <->
      started_ m = false /\ fst (fst (start be m)) = true).
Proof.
  unfold start. destruct (started_ m) eqn:Hs.
  - cbn [fst snd]. split; [congruence |].
    split; [intros [] | intros [Hf _]; discriminate].
  - destruct (monitor_ m) as [h |];
      [| destruct (new_r be <? 0); [| destruct (register_callback_r be <? 0)]];
      try destruct (start_r be <? 0); cbn [fst snd started_ boards_ app];
      (split; [congruence |]);
      (split;
       [ intros Hi;
         first [ split; reflexivity
               | cbn [In] in Hi; repeat (destruct Hi as [Hi | Hi]; [discriminate |]);
                 destruct Hi ]
       | intros [_ Hf];
         first [ discriminate | cbn [In]; repeat (first [left; reflexivity | right]) ] ]).
Qed.

(** X21.  When the backend monitor cannot be created or the callback cannot
    be registered, [start()] returns false and leaves the monitor as it
    was, without a backend monitor and with the serial thread not started;
    what [ty_monitor_new] gave is freed exactly when there was something to
    free. *)
Theorem failed_creation_keeps_no_monitor (be : backend) (m : Monitor) :
  started_ m = false -> monitor_ m = None ->
  new_r be < 0 \/ register_callback_r be < 0 ->
  fst (start be m) = (false, m)
  /\ ~ In serial_thread_start (snd (start be m))
  /\ (In ty_monitor_free (snd (start be m)) <-> 0 <= new_r be).
Proof.
  intros Hs Hm Hfail. unfold start. rewrite Hs, Hm.
  destruct (Z.ltb_spec (new_r be) 0) as [Hn | Hn]; cbn [fst snd In].
  - split; [reflexivity |]. split; [intros [Hi | []]; discriminate |].
    split; [intros [Hi | []]; discriminate | lia].
  - destruct (Z.ltb_spec (register_callback_r be) 0) as [Hr | Hr]; [| lia].
    cbn [fst snd In]. split; [reflexivity |].
    split; [intros [Hi | [Hi | [Hi | []]]]; discriminate |].
    split; [intros _; exact Hn | tauto].
Qed.

Lemma failed_creation_keeps_no_monitor_witness :
  started_ idle = false /\ monitor_ idle = None
  /\ (new_r no_callback < 0 \/ register_callback_r no_callback < 0)
  /\ fst (start no_callback idle) = (false, idle)
  /\ In ty_monitor_free (snd (start no_callback idle)).
Proof.
  assert (Hf : new_r no_callback < 0 \/ register_callback_r no_callback < 0)
    by (right; reflexivity).
  split; [reflexivity |]. split; [reflexivity |]. split; [exact Hf |].
  destruct (failed_creation_keeps_no_monitor no_callback idle eq_refl eq_refl Hf)
    as (Hsame & _ & Hfree).
  split; [exact Hsame |]. apply Hfree. cbn. lia.
Defined.

(** X22.  When [ty_monitor_start] fails, the serial thread has been started
    all the same, the backend monitor is kept for a later call, and the
    monitor is not marked started, so that a [stop()] that follows does
    nothing: it neither quits the thread nor calls [ty_monitor_stop]. *)
Theorem failed_start_leaves_the_thread_running (be : backend) (m : Monitor) :
  started_ m = false ->
  monitor_ m <> None \/ (0 <= new_r be /\ 0 <= register_callback_r be) ->
  start_r be < 0 ->
  fst (fst (start be m)) = false
  /\ In serial_thread_start (snd (start be m))
  /\ monitor_ (snd (fst (start be m))) <> None
  /\ stop (snd (fst (start be m))) = (snd (fst (start be m)), []).
Proof.
  intros Hs Hm Hr. unfold start. rewrite Hs.
  assert (Hlt : (start_r be <? 0) = true) by (apply Z.ltb_lt; exact Hr).
  destruct (monitor_ m) as [h |] eqn:Hh.
  - rewrite Hlt. cbn [fst snd app In]. split; [reflexivity |]. split; [tauto |].
    split; [congruence |]. unfold stop. rewrite Hs. reflexivity.
  - destruct Hm as [Hm | [Hn Hc]]; [congruence |].
    rewrite (proj2 (Z.ltb_ge _ _) Hn), (proj2 (Z.ltb_ge _ _) Hc), Hlt.
    cbn [fst snd app In monitor_]. split; [reflexivity |]. split; [tauto |].
    split; [discriminate |]. reflexivity.
Qed.

Lemma failed_start_leaves_the_thread_running_witness :
  started_ stopped = false /\ start_r no_start < 0
  /\ In serial_thread_start (snd (start no_start stopped))
  /\ stop (snd (fst (start no_start stopped))) = (snd (fst (start no_start stopped)), []).
Proof.
  assert (Hr : start_r no_start < 0) by reflexivity.
  assert (Hm : monitor_ stopped <> None
               \/ (0 <= new_r no_start /\ 0 <= register_callback_r no_start))
    by (left; discriminate).
  split; [reflexivity |]. split; [exact Hr |].
  destruct (failed_start_leaves_the_thread_running no_start stopped eq_refl Hm Hr)
    as (_ & Hthread & _ & Hstop).
  split; [exact Hthread | exact Hstop].
Defined.

Lemma stop_keeps_the_monitor (m : Monitor) :
  started_ (fst (stop m)) = false /\ monitor_ (fst (stop m)) = monitor_ m.
Proof.
  unfold stop. destruct (started_ m) eqn:Hs; cbn [negb].
  - destruct (boards_ m); split; reflexivity.
  - split; [exact Hs | reflexivity].
Qed.

(** X23.  [stop()] keeps the backend monitor, and a [start()] that follows
    uses it again: no [ty_monitor_new], no second registration of the
    callback, only the thread, [ty_monitor_start] and, when that succeeds,
    the notifier. *)
Theorem restart_reuses_the_backend_monitor (be : backend) (m : Monitor) (h : Z) :
  monitor_ m = Some h ->
  monitor_ (snd (fst (start be (fst (stop m))))) = Some h
  /\ snd (start be (fst (stop m))) =
     [serial_thread_start; ty_monitor_start (start_r be)]
     ++ (if fst (fst (start be (fst (stop m)))) then [setEnabled true] else []).
Proof.
  intros Hm. destruct (stop_keeps_the_monitor m) as [Hs Hk]. rewrite Hm in Hk.
  unfold start. rewrite Hs, Hk.
  destruct (start_r be <? 0); cbn [fst snd app monitor_]; split; try reflexivity; exact Hk.
Qed.

Lemma restart_reuses_the_backend_monitor_witness :
  monitor_ one_board = Some 1
  /\ snd (start answers_ok (fst (stop one_board))) =
     [serial_thread_start; ty_monitor_start 0; setEnabled true].
Proof.
  split; [reflexivity |].
  exact (proj2 (restart_reuses_the_backend_monitor answers_ok one_board 1 eq_refl)).
Defined.

End BoardRules.

(** ** The alignment macro *)

Module AlignRules.

Import Hs.

Lemma size_t_minus_one (x : Z) : 0 < x <= 2 ^ 64 -> to_size_t (to_size_t x - 1) = x - 1.
Proof.
  intros Hx. unfold to_size_t. rewrite Zminus_mod_idemp_l.
  apply Z.mod_small. lia.
Qed.

(** X24.  [_HS_ALIGN_SIZE(size, align)] rounds [size] up to a multiple of
    [align] as long as [size + align - 1] fits a [size_t]: the result is a
    multiple of [align], it is not below [size], and it is less than [align]
    above it. *)
Theorem align_rounds_up (size align : Z) :
  0 < align -> 0 <= size -> size + align <= 2 ^ 64 ->
  _HS_ALIGN_SIZE size align mod align = 0
  /\ size <= _HS_ALIGN_SIZE size align < size + align.
Proof.
  intros Ha Hs Hfit. unfold _HS_ALIGN_SIZE.
  rewrite size_t_minus_one by lia.
  pose proof (Z.div_mod (size + align - 1) align ltac:(lia)) as Hdm.
  pose proof (Z.mod_pos_bound (size + align - 1) align Ha) as Hrem.
  assert (Hq : (size + align - 1) / align * align = size + align - 1 - (size + align - 1) mod align)
    by lia.
  assert (Hsmall : to_size_t ((size + align - 1) / align * align)
                   = (size + align - 1) / align * align).
  { unfold to_size_t. apply Z.mod_small. lia. }
  rewrite Hsmall. split; [apply Z.mod_mul; lia | lia].
Qed.

Lemma align_rounds_up_witness :
  0 < 8 /\ 0 <= 13 /\ 13 + 8 <= 2 ^ 64 /\ _HS_ALIGN_SIZE 13 8 = 16.
Proof.
  assert (Ha : 0 < 8) by lia.
  assert (Hs : 0 <= 13) by lia.
  assert (Hfit : 13 + 8 <= 2 ^ 64) by (vm_compute; discriminate).
  split; [exact Ha |]. split; [exact Hs |]. split; [exact Hfit |].
  destruct (align_rounds_up 13 8 Ha Hs Hfit) as [_ _]. reflexivity.
Defined.

(** X25.  Past that bound the macro does not round up: for a [size] within
    [align] of the top of [size_t] the sum wraps and the result is 0. *)
Theorem align_wraps_to_zero (size align : Z) :
  0 < align -> size < 2 ^ 64 -> align <= 2 ^ 64 -> 2 ^ 64 < size + align ->
  _HS_ALIGN_SIZE size align = 0.
Proof.
  intros Ha Hs Hal Hover. unfold _HS_ALIGN_SIZE.
  assert (Hsum : to_size_t (size + align) = size + align - 2 ^ 64).
  { unfold to_size_t. symmetry. apply (Z.mod_unique _ _ 1); lia. }
  rewrite Hsum.
  assert (Hm : to_size_t (size + align - 2 ^ 64 - 1) = size + align - 2 ^ 64 - 1).
  { unfold to_size_t. apply Z.mod_small. lia. }
  rewrite Hm, Z.div_small by lia. reflexivity.
Qed.

Lemma align_wraps_to_zero_witness :
  0 < 8 /\ 2 ^ 64 - 1 < 2 ^ 64 /\ _HS_ALIGN_SIZE (2 ^ 64 - 1) 8 = 0.
Proof.
  assert (Ha : 0 < 8) by lia.
  assert (Hs : 2 ^ 64 - 1 < 2 ^ 64) by (vm_compute; reflexivity).
  assert (Hal : 8 <= 2 ^ 64) by (vm_compute; discriminate).
  assert (Hover : 2 ^ 64 < 2 ^ 64 - 1 + 8) by (vm_compute; reflexivity).
  split; [exact Ha |]. split; [exact Hs |].
  exact (align_wraps_to_zero (2 ^ 64 - 1) 8 Ha Hs Hal Hover).
Defined.

End AlignRules.
